(** * Meshtastic scripts: node-text parsing and health alerting

    A shallow embedding of the parsing and alerting logic of
    [mesh-monitor.py] ([MeshMonitor.parse_nodes]) and
    [node-health-alert.py] ([NodeHealthMonitor.parse_node_data],
    [NodeHealthMonitor.check_node_health]), with the properties the
    specification states about them.

    Modelling conventions.
    - A Python [str] is a [string]; a character is read as a code point
      below 256, so the model covers texts whose code points are below 256.
    - A [dict] with string keys is a [gmap string _].
    - A Python exception is a [Raise] result; [try]/[except] is a [match].
    - [time.time()] and [datetime.now()] are the [now] argument of an
      evaluation: one clock reading per call of [check_node_health]. *)

From Stdlib Require Import ZArith NArith Ascii String Lia.
From stdpp Require Import base option list gmap strings.

(** ** Python string primitives *)

Module PyStr.

(** [str.isspace] on a single character, for code points below 256:
    TAB..CR, FS..US, SPACE, NEL and NBSP. *)
Definition isspace (c : ascii) : bool :=
  let n := N_of_ascii c in
  ((9 <=? n) && (n <=? 13) || (28 <=? n) && (n <=? 32)
   || (n =? 133) || (n =? 160))%N.

Definition isdigit (c : ascii) : bool :=
  let n := N_of_ascii c in ((48 <=? n) && (n <=? 57))%N.

(** [bool(s)] for a string: non-empty. *)
Definition truthy (s : string) : bool :=
  match s with EmptyString => false | String _ _ => true end.

Fixpoint lstrip (s : string) : string :=
  match s with
  | EmptyString => EmptyString
  | String c s' => if isspace c then lstrip s' else s
  end.

Fixpoint rstrip (s : string) : string :=
  match s with
  | EmptyString => EmptyString
  | String c s' =>
      match rstrip s' with
      | EmptyString => if isspace c then EmptyString else String c EmptyString
      | r => String c r
      end
  end.

(** [s.strip()] *)
Definition strip (s : string) : string := lstrip (rstrip s).

(** [s.startswith(p)] *)
Fixpoint startswith (p s : string) : bool :=
  match p, s with
  | EmptyString, _ => true
  | String a p', String b s' => Ascii.eqb a b && startswith p' s'
  | String _ _, EmptyString => false
  end.

(** [sub in s] *)
Fixpoint contains (sub s : string) : bool :=
  startswith sub s
  || match s with
     | EmptyString => false
     | String _ s' => contains sub s'
     end.

(** [s.split(sep)] for a one-character separator. *)
Fixpoint split (sep : ascii) (s : string) : list string :=
  match s with
  | EmptyString => [EmptyString]
  | String c s' =>
      if Ascii.eqb c sep then EmptyString :: split sep s'
      else match split sep s' with
           | w :: ws => String c w :: ws
           | [] => [String c EmptyString]
           end
  end.

(** [s.split(sep, 1)] for a one-character separator: one or two pieces. *)
Fixpoint split1 (sep : ascii) (s : string) : list string :=
  match s with
  | EmptyString => [EmptyString]
  | String c s' =>
      if Ascii.eqb c sep then [EmptyString; s']
      else match split1 sep s' with
           | w :: ws => String c w :: ws
           | [] => [String c EmptyString]
           end
  end.

(** [s.replace(old, new)] for a non-empty [old]: occurrences are replaced
    left to right, without overlap. [skip] counts the characters of a
    match that are still to be dropped. *)
Fixpoint replace_go (old new : string) (skip : nat) (s : string) : string :=
  match s with
  | EmptyString => EmptyString
  | String c s' =>
      match skip with
      | S k => replace_go old new k s'
      | O =>
          if startswith old s
          then new +:+ replace_go old new (String.length old - 1) s'
          else String c (replace_go old new 0 s')
      end
  end.

Definition replace (old new s : string) : string := replace_go old new 0 s.

(** ASCII lower-casing, as used by the case-insensitive [inf]/[nan]
    literals of [float]. *)
Definition lower_char (c : ascii) : ascii :=
  let n := N_of_ascii c in
  if ((65 <=? n) && (n <=? 90))%N then ascii_of_N (n + 32) else c.

Fixpoint lower (s : string) : string :=
  match s with
  | EmptyString => EmptyString
  | String c s' => String (lower_char c) (lower s')
  end.

End PyStr.

(** ** Exceptions *)

Inductive exn := ValueError | KeyError.

Inductive result (A : Type) : Type :=
| Ok (a : A)
| Raise (e : exn).
Arguments Ok {A} a.
Arguments Raise {A} e.

Global Instance result_ret : MRet result := λ A a, Ok a.

Global Instance result_bind : MBind result := λ A B k r,
  match r with
  | Ok a => k a
  | Raise e => Raise e
  end.

(** ** Python numeric literals: [int(s)] and [float(s)] *)

Module PyNum.
Import PyStr.

Definition digit_val (c : ascii) : Z := (Z.of_N (N_of_ascii c) - 48)%Z.

(** Decimal digits with single underscores between digits.
    [prev_digit] tells whether the previous character was a digit. *)
Fixpoint int_digits (acc : Z) (prev_digit : bool) (s : string) : option Z :=
  match s with
  | EmptyString => if prev_digit then Some acc else None
  | String c s' =>
      if isdigit c then int_digits (10 * acc + digit_val c)%Z true s'
      else if Ascii.eqb c "_" && prev_digit then int_digits acc false s'
      else None
  end.

(** [int(s)] in base 10: surrounding whitespace, an optional sign, then
    digits. Anything else raises [ValueError]. The interpreter's optional
    limit on the number of digits is not modelled. *)
Definition int (s : string) : result Z :=
  let t := strip s in
  let parsed :=
    match t with
    | String "+" r => int_digits 0 false r
    | String "-" r => Z.opp <$> int_digits 0 false r
    | _ => int_digits 0 false t
    end in
  match parsed with
  | Some z => Ok z
  | None => Raise ValueError
  end.

(** The value a float literal denotes, before rounding: not-a-number, an
    infinity, or [(-1)^neg * m * 10^e]. The double that [float] returns is
    the one nearest to it (round-half-even). *)
Inductive pyfloat : Type :=
| FNan
| FInf (neg : bool)
| FDec (neg : bool) (m : N) (e : Z).

(** Underscores in a float literal: each must stand between two digits. *)
Fixpoint underscores_ok (prev : ascii) (s : string) : bool :=
  match s with
  | EmptyString => negb (Ascii.eqb prev "_")
  | String c s' =>
      (if Ascii.eqb c "_" then isdigit prev
       else negb (Ascii.eqb prev "_") || isdigit c)
      && underscores_ok c s'
  end.

(** Reads a run of digits: the accumulated value, how many digits were
    read, and the rest of the input. *)
Fixpoint take_digits (acc : N) (n : nat) (s : string) : N * nat * string :=
  match s with
  | EmptyString => (acc, n, EmptyString)
  | String c s' =>
      if isdigit c
      then take_digits (10 * acc + (N_of_ascii c - 48))%N (S n) s'
      else (acc, n, s)
  end.

(** The exponent part: empty, or [e]/[E], an optional sign and digits. *)
Definition exponent (s : string) : option Z :=
  match s with
  | EmptyString => Some 0%Z
  | String c r =>
      if Ascii.eqb (lower_char c) "e" then
        let '(neg, r) :=
          match r with
          | String "+" r' => (false, r')
          | String "-" r' => (true, r')
          | _ => (false, r)
          end in
        match take_digits 0 0 r with
        | (_, O, _) => None
        | (x, S _, EmptyString) => Some (if neg then Z.opp (Z.of_N x) else Z.of_N x)
        | _ => None
        end
      else None
  end.

(** An unsigned decimal literal: digits, an optional point and digits (at
    least one digit in all), an optional exponent. *)
Definition decimal (neg : bool) (s : string) : option pyfloat :=
  let '(m0, n_int, r) := take_digits 0 0 s in
  let '(m, n_frac, r) :=
    match r with
    | String "." r' => take_digits m0 0 r'
    | _ => (m0, O, r)
    end in
  match (n_int + n_frac)%nat with
  | O => None
  | S _ =>
      x ← exponent r;
      Some (FDec neg m (x - Z.of_nat n_frac)%Z)
  end.

Definition unsigned_float (neg : bool) (s : string) : option pyfloat :=
  let l := lower s in
  if decide (l = "inf" ∨ l = "infinity") then Some (FInf neg)
  else if decide (l = "nan") then Some FNan
  else decimal neg s.

(** [float(s)]: surrounding whitespace, underscores between digits, an
    optional sign, then [inf], [infinity], [nan] or a decimal literal.
    Anything else raises [ValueError]. *)
Definition float (s : string) : result pyfloat :=
  let t := strip s in
  let parsed :=
    if underscores_ok "000" t then
      match replace "_" "" t with
      | String "+" r => unsigned_float false r
      | String "-" r => unsigned_float true r
      | r => unsigned_float false r
      end
    else None in
  match parsed with
  | Some f => Ok f
  | None => Raise ValueError
  end.

(** [x < -10] on the double nearest to the literal. [-10] is a double whose
    last significand bit is 0 and whose neighbour below is
    [-(10 + 2^-49)], so a literal rounds to a double below [-10] exactly
    when its value is below [-(10 + 2^-50)]. *)
Definition lt_minus_10 (x : pyfloat) : bool :=
  match x with
  | FNan => false
  | FInf neg => neg
  | FDec neg m e =>
      neg &&
      (if (0 <=? e)%Z
       then (10 * 2 ^ 50 + 1 <? Z.of_N m * 10 ^ e * 2 ^ 50)%Z
       else ((10 * 2 ^ 50 + 1) * 10 ^ (- e) <? Z.of_N m * 2 ^ 50)%Z)
  end.

End PyNum.

Import PyStr PyNum.

(** ** [mesh-monitor.py]: [MeshMonitor.parse_nodes] *)

Module MeshMonitor.

(** What the loop of [parse_nodes] carries from line to line: the [nodes]
    dictionary and [current_node] ([None] before the first header). *)
Record parse_state := ParseState {
  nodes : gmap string (gmap string string);
  current_node : option string
}.

(** [bool(current_node)]: neither [None] nor the empty string. *)
Definition truthy_node (current_node : option string) : bool :=
  match current_node with
  | None => false
  | Some c => truthy c
  end.

(** One iteration of the [for line in output.split('\n')] loop
    (mesh-monitor.py, lines 45-57). The tuple
    assignment [key, value = ...] raises [ValueError] unless the split has
    two pieces; [nodes[current_node][...] = ...] raises [KeyError] when
    [current_node] is not a key of [nodes]. *)
Definition parse_line (st : parse_state) (line : string) : result parse_state :=
  if startswith "  " line then
    (* Node data line *)
    if contains ":" line then
      match split1 ":" (strip line) with
      | [key; value] =>
          if truthy_node (current_node st) && truthy key && truthy value then
            match current_node st with
            | Some c =>
                match nodes st !! c with
                | Some fields =>
                    Ok (ParseState
                          (<[c := <[strip key := strip value]> fields]> (nodes st))
                          (current_node st))
                | None => Raise KeyError
                end
            | None => Ok st
            end
          else Ok st
      | _ => Raise ValueError
      end
    else Ok st
  else
    (* New node header *)
    let node_id := strip line in
    if startswith "!" node_id
    then Ok (ParseState (<[node_id := ∅]> (nodes st)) (Some node_id))
    else Ok st.

Fixpoint parse_lines (st : parse_state) (lines : list string) : result parse_state :=
  match lines with
  | [] => Ok st
  | line :: rest => st' ← parse_line st line; parse_lines st' rest
  end.

Definition parse_nodes (output : string) : result (gmap string (gmap string string)) :=
  st ← parse_lines (ParseState ∅ None) (split "010" output);
  Ok (nodes st).

End MeshMonitor.

(** ** [node-health-alert.py]: [NodeHealthMonitor] *)

Module NodeHealthMonitor.

(** The instance attributes that [check_node_health] reads and writes. *)
Record monitor := Monitor {
  last_seen : gmap string Z;
  battery_status : gmap string Z;
  alert_count : gmap string Z
}.

(** [NodeHealthMonitor(...)]: all three dictionaries start empty. *)
Definition init : monitor := Monitor ∅ ∅ ∅.

(** The three alert messages, with the values they interpolate. *)
Inductive alert : Type :=
| Offline (timestamp : Z) (node_id : string)
| BatteryLow (timestamp : Z) (node_id : string) (battery_level : Z)
| WeakSignal (timestamp : Z) (node_id : string) (snr : pyfloat).

Inductive category := offline | low_battery | weak_signal.

Definition category_of (a : alert) : category :=
  match a with
  | Offline _ _ => offline
  | BatteryLow _ _ _ => low_battery
  | WeakSignal _ _ _ => weak_signal
  end.

(** [f"{node_id}_battery"] and [f"{node_id}_snr"] *)
Definition battery_key (node_id : string) : string := node_id +:+ "_battery".
Definition snr_key (node_id : string) : string := node_id +:+ "_snr".

(** [parse_node_data] (node-health-alert.py, lines 40-58): the loop over
    the lines, with [break] as an early result and [continue] as the
    recursive call. *)
Fixpoint parse_node_lines (node_id : string) (lines : list string)
    (in_target_node : bool) (node_data : gmap string string)
    : result (gmap string string) :=
  match lines with
  | [] => Ok node_data
  | line :: rest =>
      if decide (strip line = node_id) then
        parse_node_lines node_id rest true node_data
      else if in_target_node then
        if startswith "!" line then Ok node_data (* Next node *)
        else if contains ":" line then
          match split1 ":" line with
          | [key; value] =>
              parse_node_lines node_id rest in_target_node
                (<[strip key := strip value]> node_data)
          | _ => Raise ValueError
          end
        else parse_node_lines node_id rest in_target_node node_data
      else parse_node_lines node_id rest in_target_node node_data
  end.

Definition parse_node_data (output node_id : string) : result (gmap string string) :=
  parse_node_lines node_id (split "010" output) false ∅.

Section check.
(** [BATTERY_THRESHOLD] is a module global that [--battery-threshold]
    overwrites at start-up. *)
Variable BATTERY_THRESHOLD : Z.

(** [alert_key not in self.alert_count or
     (time.time() - self.alert_count[alert_key]) > 3600] *)
Definition may_fire (self : monitor) (alert_key : string) (now : Z) : bool :=
  match alert_count self !! alert_key with
  | None => true
  | Some fired => (3600 <? now - fired)%Z
  end.

(** The block "Check battery level" of [check_node_health] (lines 74-89);
    [alerts]
    and [self] are the alert list and the instance as they stand when
    the block starts. [except ValueError: pass] leaves both as they
    were when [int] raised. *)
Definition check_battery (self : monitor) (node_id : string)
    (node_data : gmap string string) (now : Z) (alerts : list alert)
    : result (list alert * monitor) :=
  let battery_str := default "" (node_data !! "Battery") in
  if truthy battery_str && contains "%" battery_str then
    match int (strip (replace "%" "" battery_str)) with
    | Ok battery_level =>
        let '(alerts, self) :=
          if (battery_level <=? BATTERY_THRESHOLD)%Z then
            let alert_key := battery_key node_id in
            if may_fire self alert_key now then
              (alerts ++ [BatteryLow now node_id battery_level],
               Monitor (last_seen self) (battery_status self)
                       (<[alert_key := now]> (alert_count self)))
            else (alerts, self)
          else (alerts, self) in
        Ok (alerts,
            Monitor (last_seen self)
                    (<[node_id := battery_level]> (battery_status self))
                    (alert_count self))
    | Raise ValueError => Ok (alerts, self)
    | Raise e => Raise e
    end
  else Ok (alerts, self).

(** The block "Check SNR (signal quality)" of [check_node_health] (lines
    91-103). *)
Definition check_snr (self : monitor) (node_id : string)
    (node_data : gmap string string) (now : Z) (alerts : list alert)
    : result (list alert * monitor) :=
  let snr_str := default "" (node_data !! "SNR") in
  if truthy snr_str && contains "dB" snr_str then
    match float (strip (replace "dB" "" snr_str)) with
    | Ok snr =>
        if lt_minus_10 snr then
          let alert_key := snr_key node_id in
          if may_fire self alert_key now then
            Ok (alerts ++ [WeakSignal now node_id snr],
                Monitor (last_seen self) (battery_status self)
                        (<[alert_key := now]> (alert_count self)))
          else Ok (alerts, self)
        else Ok (alerts, self)
    | Raise ValueError => Ok (alerts, self)
    | Raise e => Raise e
    end
  else Ok (alerts, self).

Definition check_node_health (self : monitor) (node_id : string)
    (node_data : gmap string string) (now : Z)
    : result (list alert * monitor) :=
  let alerts : list alert := [] in
  (* Check if node is present *)
  if decide (node_data = ∅) then
    let alerts :=
      if decide (node_id ∈ dom (last_seen self))
      then alerts ++ [Offline now node_id] else alerts in
    Ok (alerts, self)
  else
    (* Update last seen *)
    let self := Monitor (<[node_id := now]> (last_seen self))
                        (battery_status self) (alert_count self) in
    '(alerts, self) ← check_battery self node_id node_data now alerts;
    '(alerts, self) ← check_snr self node_id node_data now alerts;
    Ok (alerts, self).

(** A monitoring run, as [monitor] drives it: one evaluation after the
    other, each on the state the previous one left. An observation is
    the node id, its field map and the clock reading. *)
Definition observation : Type := string * gmap string string * Z.

Fixpoint evaluate_all (self : monitor) (obs : list observation)
    : result (list (list alert) * monitor) :=
  match obs with
  | [] => Ok ([], self)
  | (node_id, node_data, now) :: rest =>
      '(alerts, self) ← check_node_health self node_id node_data now;
      '(more, self) ← evaluate_all self rest;
      Ok (alerts :: more, self)
  end.
End check.

End NodeHealthMonitor.

Import MeshMonitor NodeHealthMonitor.

(** ** Vocabulary of the statements *)

(** [c] occurs in [s]. *)
Definition occurs (c : ascii) (s : string) : Prop := ∃ a b, s = a +:+ String c b.

Module Lines.

(** How [parse_nodes] reads a line. A data line begins with two spaces; a
    header is any other line whose trimmed text begins with [!]. *)
Definition indented (line : string) : Prop := ∃ r, line = "  " +:+ r.

Definition header (line : string) : Prop :=
  ¬ indented line ∧ ∃ r, strip line = "!" +:+ r.

(** A data line that carries the field [k] with value [v]: its trimmed
    text is [k0:v0], cut at the first colon, with neither side empty. *)
Definition field (line k v : string) : Prop :=
  indented line ∧
  ∃ k0 v0, strip line = k0 +:+ String ":" v0 ∧ ¬ occurs ":" k0 ∧
           k0 ≠ "" ∧ v0 ≠ "" ∧ k = strip k0 ∧ v = strip v0.

Definition is_header (line : string) : bool :=
  negb (startswith "  " line) && startswith "!" (strip line).

(** The loop invariant of [parse_nodes]: the current node, once set, is a
    non-empty key of [nodes]. *)
Definition wf (st : parse_state) : Prop :=
  ∀ c, current_node st = Some c → c ≠ "" ∧ is_Some (nodes st !! c).

(** The keys that the header lines of a text announce, in order. *)
Definition headers (output : string) : list string :=
  strip <$> filter (λ line, is_header line = true) (split "010" output).

(** How [parse_node_data] reads the lines after its target: a line that
    begins with [!] ends the block, unless it is the target again; any
    other line with a colon is a field, cut at its first colon. *)
Definition bang (line : string) : Prop := ∃ r, line = "!" +:+ r.

Definition block_field (node_id line k v : string) : Prop :=
  strip line ≠ node_id ∧
  ∃ k0 v0, line = k0 +:+ String ":" v0 ∧ ¬ occurs ":" k0 ∧
           k = strip k0 ∧ v = strip v0.

(** No line of [block] is a field with key [k]. *)
Definition no_field (node_id : string) (block : list string) (k : string) : Prop :=
  ∀ line v, line ∈ block → ¬ block_field node_id line k v.

(** The last line of [block] that is a field with key [k] gives it [v]. *)
Definition last_field (node_id : string) (block : list string) (k v : string) : Prop :=
  ∃ b1 line b2, block = b1 ++ line :: b2 ∧
    block_field node_id line k v ∧ no_field node_id b2 k.

End Lines.

(** The last character of a string, if any. *)
Fixpoint last_char (s : string) : option ascii :=
  match s with
  | EmptyString => None
  | String c EmptyString => Some c
  | String _ s' => last_char s'
  end.

(** A text given by its lines: they are joined by newlines. *)
Fixpoint text_of (lines : list string) : string :=
  match lines with
  | [] => ""
  | [line] => line
  | line :: rest => line +:+ String "010" (text_of rest)
  end.

(** The two numeric facts that [check_node_health] derives from a field
    map, as optional values: absent when the field is missing, lacks its
    unit, or does not parse. *)
Module Classifier.

(** [int(battery_str.replace('%', '').strip())] under its guards. *)
Definition batteryPercent (node_data : gmap string string) : option Z :=
  battery_str ← node_data !! "Battery";
  if contains "%" battery_str then
    match int (strip (replace "%" "" battery_str)) with
    | Ok battery_level => Some battery_level
    | Raise _ => None
    end
  else None.

(** [float(snr_str.replace('dB', '').strip())] under its guards. *)
Definition snrDb (node_data : gmap string string) : option pyfloat :=
  snr_str ← node_data !! "SNR";
  if contains "dB" snr_str then
    match float (strip (replace "dB" "" snr_str)) with
    | Ok snr => Some snr
    | Raise _ => None
    end
  else None.

End Classifier.

(** Whether an evaluation of a present node raises each alert, and with
    which value. *)
Definition low_battery_fires (threshold : Z) (self : monitor)
    (node_id : string) (node_data : gmap string string) (now : Z) : option Z :=
  battery_level ← Classifier.batteryPercent node_data;
  if (battery_level <=? threshold)%Z && may_fire self (battery_key node_id) now
  then Some battery_level else None.

Definition weak_signal_fires (self : monitor)
    (node_id : string) (node_data : gmap string string) (now : Z) : option pyfloat :=
  snr ← Classifier.snrDb node_data;
  if lt_minus_10 snr && may_fire self (snr_key node_id) now
  then Some snr else None.

(** Some observation of the run saw the node present. *)
Definition seen_present (node_id : string) (obs : list observation) : Prop :=
  ∃ node_data now, (node_id, node_data, now) ∈ obs ∧ node_data ≠ ∅.

(** The suppression entry allows an alert at [now]: there is none, or it is
    more than 3600 before [now]. *)
Definition cooldown_over (self : monitor) (alert_key : string) (now : Z) : Prop :=
  alert_count self !! alert_key = None
  ∨ ∃ fired, alert_count self !! alert_key = Some fired ∧ (3600 < now - fired)%Z.

(** ** The parser as the specification words it *)

Module Spec.

Definition leading_whitespace (line : string) : bool :=
  match line with
  | EmptyString => false
  | String c _ => isspace c
  end.

(** "A line is a node header if, after trimming, it is non-empty, does not
    start with leading whitespace, and begins with [!]." *)
Definition is_header (line : string) : bool :=
  truthy (strip line) && negb (leading_whitespace line)
  && startswith "!" (strip line).

(** "Any other line is a field line if it starts with at least one leading
    whitespace character and contains a [:] separator." *)
Definition is_field_line (line : string) : bool :=
  negb (is_header line) && leading_whitespace line && contains ":" line.

(** "It is split on the first [:] only, both sides trimmed." *)
Definition key_value (line : string) : string * string :=
  match split1 ":" line with
  | [key; value] => (strip key, strip value)
  | _ => (strip line, "")
  end.

(** [parse]: a header opens a new current node with an empty field map; a
    field line is stored into the current node's map, last occurrence
    winning; a field line before any header is dropped; other lines are
    ignored. *)
Fixpoint parse_lines (nodes : gmap string (gmap string string))
    (current : option string) (lines : list string)
    : gmap string (gmap string string) :=
  match lines with
  | [] => nodes
  | line :: rest =>
      if is_header line then
        parse_lines (<[strip line := ∅]> nodes) (Some (strip line)) rest
      else if is_field_line line then
        match current with
        | Some c =>
            let '(k, v) := key_value line in
            parse_lines (<[c := <[k := v]> (default ∅ (nodes !! c))]> nodes)
                        current rest
        | None => parse_lines nodes current rest
        end
      else parse_lines nodes current rest
  end.

Definition parse (text : string) : gmap string (gmap string string) :=
  parse_lines ∅ None (split "010" text).

(** [parseSingleNode]: "scan until a line exactly equal to [targetId]
    (after trim) is found, then collect field lines until the next header
    line or end of input." *)
Fixpoint collect (fields : gmap string string) (lines : list string)
    : gmap string string :=
  match lines with
  | [] => fields
  | line :: rest =>
      if is_header line then fields
      else if is_field_line line then
        let '(k, v) := key_value line in collect (<[k := v]> fields) rest
      else collect fields rest
  end.

Fixpoint scan (targetId : string) (lines : list string) : gmap string string :=
  match lines with
  | [] => ∅
  | line :: rest =>
      if decide (strip line = targetId) then collect ∅ rest
      else scan targetId rest
  end.

Definition parseSingleNode (text targetId : string) : gmap string string :=
  scan targetId (split "010" text).

End Spec.

(** * Further parts of the scripts *)

(** ** Vocabulary for runs of the health monitor *)

Module Runs.

(** The node and the clock reading that an alert message names. *)
Definition node_of (a : alert) : string :=
  match a with
  | Offline _ node_id => node_id
  | BatteryLow _ node_id _ => node_id
  | WeakSignal _ node_id _ => node_id
  end.

Definition timestamp_of (a : alert) : Z :=
  match a with
  | Offline timestamp _ => timestamp
  | BatteryLow timestamp _ _ => timestamp
  | WeakSignal timestamp _ _ => timestamp
  end.

(** The key of [alert_count] under which an alert is throttled; the
    offline alert has none. *)
Definition alert_key (a : alert) : option string :=
  match a with
  | Offline _ _ => None
  | BatteryLow _ node_id _ => Some (battery_key node_id)
  | WeakSignal _ node_id _ => Some (snr_key node_id)
  end.

(** The observations of a run that evaluate [node_id], and the alert lists
    that a run gave at those observations. *)
Definition about (node_id : string) (o : observation) : Prop := o.1.1 = node_id.

Global Instance about_dec node_id o : Decision (about node_id o).
Proof. unfold about. apply _. Defined.

Definition alerts_about (node_id : string) (obs : list observation)
    (out : list (list alert)) : list (list alert) :=
  snd <$> filter (λ p, about node_id p.1) (zip obs out).

(** Two monitors hold the same entries for [node_id]. *)
Definition agree_on (node_id : string) (s1 s2 : monitor) : Prop :=
  last_seen s1 !! node_id = last_seen s2 !! node_id ∧
  battery_status s1 !! node_id = battery_status s2 !! node_id ∧
  alert_count s1 !! battery_key node_id = alert_count s2 !! battery_key node_id ∧
  alert_count s1 !! snr_key node_id = alert_count s2 !! snr_key node_id.



(** The suppression entries cover the alerts given so far: every throttled
    alert of [hist] has its entry, which holds the clock reading of the
    alert or one more than 3600 after it. *)
Definition entries_cover (count : gmap string Z) (hist : list alert) : Prop :=
  ∀ a k, a ∈ hist → alert_key a = Some k →
    ∃ fired, count !! k = Some fired ∧
      (fired = timestamp_of a ∨ 3600 < fired - timestamp_of a)%Z.

(** Two alerts of [hist] under the same suppression key are more than 3600
    apart, the later one after the earlier one. *)
Definition spaced (hist : list alert) : Prop :=
  ∀ l1 a l2 a' l3 k, hist = l1 ++ a :: l2 ++ a' :: l3 →
    alert_key a = Some k → alert_key a' = Some k →
    (3600 < timestamp_of a' - timestamp_of a)%Z.

End Runs.

(** ** [node-health-alert.py]: the loop of [NodeHealthMonitor.monitor] *)

Module MonitorLoop.

(** What the loop prints, line by line (lines 123-145). The healthy line
    shows [self.battery_status.get(node_id, 'N/A')]. *)
Inductive printed : Type :=
| CycleLine (timestamp : Z) (cycle : nat)
| FetchFailedLine
| AlertLine (a : alert)
| HealthyLine (node_id : string) (battery : option Z)
| EmptyLine.

(** What one turn of the loop gets from outside: the result of
    [get_nodes] ([None] after an exception), the reading of the wall clock
    for the cycle line, and the clock reading of each call of
    [check_node_health], by its position among the critical nodes. *)
Record fetch := Fetch {
  stdout : option string;
  timestamp : Z;
  clock : nat → Z
}.

Section loop.
Variable BATTERY_THRESHOLD : Z.
Variable critical_nodes : list string.

(** [for node_id in self.critical_nodes] (lines 133-143); [i] is the
    position of the first node of [nodes]. *)
Fixpoint check_nodes (self : monitor) (output : string) (clock : nat → Z)
    (i : nat) (nodes : list string) : result (list printed * monitor) :=
  match nodes with
  | [] => Ok ([], self)
  | node_id :: rest =>
      node_data ← parse_node_data output node_id;
      '(alerts, self) ←
        check_node_health BATTERY_THRESHOLD self node_id node_data (clock i);
      let lines :=
        match alerts with
        | [] => [HealthyLine node_id (battery_status self !! node_id)]
        | _ :: _ => AlertLine <$> alerts
        end in
      '(more, self) ← check_nodes self output clock (S i) rest;
      Ok (lines ++ more, self)
  end.

(** One turn of [while True] (lines 121-146), without the sleep. *)
Definition cycle (self : monitor) (cycle_no : nat) (f : fetch)
    : result (list printed * monitor) :=
  let header := CycleLine (timestamp f) cycle_no in
  match stdout f with
  | Some output =>
      if truthy output then
        '(lines, self) ← check_nodes self output (clock f) 0 critical_nodes;
        Ok (header :: lines ++ [EmptyLine], self)
      else Ok ([header; FetchFailedLine], self)
  | None => Ok ([header; FetchFailedLine], self)
  end.

(** The first turns of the loop, one for each fetch; [cycle_no] is the
    value of [cycle] before the turn. *)
Fixpoint monitor_loop (self : monitor) (cycle_no : nat) (fetches : list fetch)
    : result (list printed * monitor) :=
  match fetches with
  | [] => Ok ([], self)
  | f :: rest =>
      let cycle_no := S cycle_no in
      '(lines, self) ← cycle self cycle_no f;
      '(more, self) ← monitor_loop self cycle_no rest;
      Ok (lines ++ more, self)
  end.
End loop.

(** A fetch that the loop uses: it returned a non-empty text. *)
Definition fetched (f : fetch) : Prop :=
  ∃ output, stdout f = Some output ∧ output ≠ "".

(** The lines that report on a node. *)
Definition is_report (p : printed) : Prop :=
  match p with
  | AlertLine _ | HealthyLine _ _ => True
  | _ => False
  end.

Global Instance fetched_dec f : Decision (fetched f).
Proof.
  unfold fetched. destruct (stdout f) as [output|].
  - destruct (decide (output = "")) as [->|Hne].
    + right. by intros (? & [= <-] & ?).
    + left. by exists output.
  - right. by intros (? & [=] & _).
Defined.

Global Instance is_report_dec p : Decision (is_report p).
Proof. destruct p; simpl; apply _. Defined.

(** No line of the text is the node id after trimming. *)
Definition not_listed (node_id : string) (f : fetch) : Prop :=
  ∀ output line, stdout f = Some output →
    line ∈ split "010" output → strip line ≠ node_id.

(** The monitor holds nothing about the node. *)
Definition unknown (node_id : string) (self : monitor) : Prop :=
  last_seen self !! node_id = None ∧ battery_status self !! node_id = None.

End MonitorLoop.

(** ** Vocabulary for the result of [parse_nodes] *)

Module Blocks.

(** A string as [parse_nodes] stores it: not empty, and without whitespace
    at either end. *)
Definition tidy (s : string) : Prop := s ≠ "" ∧ strip s = s.

(** Every node id begins with [!] and is tidy, and so is every key and
    every value of its fields. *)
Definition all_tidy (nodes : gmap string (gmap string string)) : Prop :=
  ∀ id fields, nodes !! id = Some fields →
    (∃ r, id = "!" +:+ r) ∧ tidy id ∧
    ∀ k v, fields !! k = Some v → tidy k ∧ tidy v.

(** No data line of [block] carries the key [k]; the last one that does
    gives it [v]. *)
Definition no_data_field (block : list string) (k : string) : Prop :=
  ∀ line v, line ∈ block → ¬ Lines.field line k v.

Definition last_data_field (block : list string) (k v : string) : Prop :=
  ∃ b1 line b2, block = b1 ++ line :: b2 ∧
    Lines.field line k v ∧ no_data_field b2 k.

(** A line of a block that both parsers read in the same way: it begins
    with two spaces, is not the node id after trimming, and if it has a
    colon, neither side of its first colon is blank. *)
Definition plain_data_line (node_id line : string) : Prop :=
  Lines.indented line ∧ strip line ≠ node_id ∧
  ∀ k v, Lines.block_field node_id line k v → k ≠ "" ∧ v ≠ "".

End Blocks.

(** ** [message-logger.py]: [MessageLogger] *)

Module MessageLogger.

(** [s.split(sep)] for a separator of several characters: the pieces
    between the occurrences of [sep], found from left to right without
    overlap. [skip] counts the characters of a found separator that are
    still to be passed over. *)
Fixpoint split_go (sep : string) (skip : nat) (s : string) : list string :=
  match s with
  | EmptyString => [EmptyString]
  | String c s' =>
      match skip with
      | S k => split_go sep k s'
      | O =>
          if startswith sep s
          then EmptyString :: split_go sep (String.length sep - 1) s'
          else match split_go sep 0 s' with
               | w :: ws => String c w :: ws
               | [] => [String c EmptyString]
               end
      end
  end.

Definition split_str (sep s : string) : list string := split_go sep 0 s.

(** [s.lower()] for code points below 256: the letters A-Z and the
    capital letters of Latin-1 (all of 192-222 but the sign 215). *)
Definition str_lower_char (c : ascii) : ascii :=
  let n := N_of_ascii c in
  if ((65 <=? n) && (n <=? 90) || (192 <=? n) && (n <=? 222) && negb (n =? 215))%N
  then ascii_of_N (n + 32) else c.

Fixpoint str_lower (s : string) : string :=
  match s with
  | EmptyString => EmptyString
  | String c s' => String (str_lower_char c) (str_lower s')
  end.

Definition newline : string := String "010" EmptyString.

(** ["-" * n] *)
Fixpoint dashes (n : nat) : string :=
  match n with
  | O => EmptyString
  | S n' => String "-" (dashes n')
  end.

(** What the logger writes to: the text of the log file ([None] while the
    file does not exist) and the lines printed to the console. *)
Record sink := Sink {
  logfile : option string;
  console : list string
}.

(** [f.write(text)] on the file opened with mode ['a']. *)
Definition append_to (file : option string) (text : string) : option string :=
  Some (default EmptyString file +:+ text).

(** The three lines that [ensure_logfile] writes to a new file; [started]
    is [str(datetime.now())]. *)
Definition file_header (started : string) : string :=
  ("# Meshtastic Message Log - Started " +:+ started +:+ newline)
  +:+ ("# Format: [TIMESTAMP] FROM -> TO | MESSAGE" +:+ newline)
  +:+ (dashes 80 +:+ newline).

(** [ensure_logfile] (lines 21-27). *)
Definition ensure_logfile (started : string) (out : sink) : sink :=
  match logfile out with
  | Some _ => out
  | None => Sink (Some (file_header started)) (console out)
  end.

(** The [log_entry] of [log_message] (lines 31-33). *)
Definition log_entry (timestamp from_node to_node message metadata : string)
    : string :=
  let log_entry :=
    "[" +:+ timestamp +:+ "] " +:+ from_node +:+ " -> " +:+ to_node
        +:+ " | " +:+ message in
  if truthy metadata then log_entry +:+ (" (" +:+ metadata +:+ ")")
  else log_entry.

(** [log_message] (lines 29-39). *)
Definition log_message (out : sink)
    (timestamp from_node to_node message metadata : string) : sink :=
  let entry := log_entry timestamp from_node to_node message metadata in
  Sink (append_to (logfile out) (entry +:+ newline)) (console out ++ [entry]).

(** [for part in parts] (lines 81-87). [l[1]] raises [IndexError] when the
    list has one element: that is the result [None]. *)
Fixpoint scan_parts (parts : list string) (from_node to_node message : string)
    : option (string * string * string) :=
  match parts with
  | [] => Some (from_node, to_node, message)
  | part :: rest =>
      if contains "From:" part then
        x ← split_str "From:" part !! 1%nat;
        scan_parts rest (strip x) to_node message
      else if contains "To:" part then
        x ← split_str "To:" part !! 1%nat;
        scan_parts rest from_node (strip x) message
      else if contains "Text:" part then
        x ← split_str "Text:" part !! 1%nat;
        scan_parts rest from_node to_node (strip x)
      else scan_parts rest from_node to_node message
  end.

(** What [listen] does with a stripped, non-empty line (lines 68-92). *)
Definition handle_line (out : sink) (line timestamp : string) : option sink :=
  if contains "From:" line
     && (contains "Text:" line || contains "telemetry" (str_lower line))
  then
    (* Extract from/to/message *)
    '(from_node, to_node, message) ←
      scan_parts (split "," line) "Unknown" "Unknown" line;
    Some (log_message out timestamp from_node to_node message "")
  else
    (* Log other events *)
    let entry := "[" +:+ timestamp +:+ "] INFO: " +:+ line in
    Some (Sink (append_to (logfile out) (entry +:+ newline))
               (console out ++ [entry])).

(** The loop of [listen] (lines 60-92) over the lines that [readline]
    returns, each with the time stamp taken for it. An empty string ends
    the loop; a line that is empty after [strip] is skipped. *)
Fixpoint read_lines (out : sink) (lines : list (string * string)) : option sink :=
  match lines with
  | [] => Some out
  | (raw, timestamp) :: rest =>
      if truthy raw then
        let line := strip raw in
        if truthy line then
          out' ← handle_line out line timestamp;
          read_lines out' rest
        else read_lines out rest
      else Some out
  end.

(** The lines that the loop reaches: those before the first empty string,
    and of these the ones that are logged. *)
Fixpoint before_eof (lines : list (string * string)) : list (string * string) :=
  match lines with
  | [] => []
  | (raw, timestamp) :: rest =>
      if truthy raw then (raw, timestamp) :: before_eof rest else []
  end.

Definition logged (lines : list (string * string)) : list (string * string) :=
  filter (λ l, strip l.1 ≠ "") (before_eof lines).

(** The entry that [listen] logs for a stripped line: the [log_entry] of
    the message it reads from it, or the INFO entry. *)
Definition entry_text (line timestamp : string) : string :=
  if contains "From:" line
     && (contains "Text:" line || contains "telemetry" (str_lower line))
  then
    match scan_parts (split "," line) "Unknown" "Unknown" line with
    | Some (from_node, to_node, message) =>
        log_entry timestamp from_node to_node message ""
    | None => ""
    end
  else "[" +:+ timestamp +:+ "] INFO: " +:+ line.

(** The text that a list of entries adds to the file. *)
Definition file_text (entries : list string) : string :=
  foldr (λ entry text, entry +:+ newline +:+ text) EmptyString entries.

End MessageLogger.

(** ** [mesh-monitor.py]: the SNR column of [display_dashboard] *)

Module Dashboard.

(** [x > 5] and [x > 0] on the double nearest to the literal. [5] is a
    double whose last significand bit is 0 and whose neighbour above is
    [5 + 2^-50], so a literal rounds to a double above [5] exactly when its
    value is above [5 + 2^-51]; and it rounds to a double above [0]
    exactly when its value is above [2^-1075], half the least positive
    double. *)
Definition gt_5 (x : pyfloat) : bool :=
  match x with
  | FNan => false
  | FInf neg => negb neg
  | FDec neg m e =>
      negb neg &&
      (if (0 <=? e)%Z
       then (5 * 2 ^ 51 + 1 <? Z.of_N m * 10 ^ e * 2 ^ 51)%Z
       else ((5 * 2 ^ 51 + 1) * 10 ^ (- e) <? Z.of_N m * 2 ^ 51)%Z)
  end.

Definition gt_0 (x : pyfloat) : bool :=
  match x with
  | FNan => false
  | FInf neg => negb neg
  | FDec neg m e =>
      negb neg &&
      (if (0 <=? e)%Z
       then (0 <? Z.of_N m)%Z
       else (10 ^ (- e) <? Z.of_N m * 2 ^ 1075)%Z)
  end.

(** The three marks that are put before the SNR text. *)
Inductive mark := good | moderate | poor.

(** The SNR column of a node (lines 99, 104-115): the mark, if any, and
    the text after it. The bare [except] leaves the text unmarked. *)
Definition snr_cell (data : gmap string string) : option mark * string :=
  let snr := default "N/A" (data !! "SNR") in
  if decide (snr ≠ "N/A") then
    match float (strip (replace "dB" "" snr)) with
    | Ok snr_val =>
        if gt_5 snr_val then (Some good, snr)
        else if gt_0 snr_val then (Some moderate, snr)
        else (Some poor, snr)
    | Raise _ => (None, snr)
    end
  else (None, snr).

End Dashboard.

(** * Properties *)

(** ** Facts about the string primitives *)

Section string_facts.
Implicit Types (s p r k v : string) (c : ascii).

Lemma append_nil_l s : "" +:+ s = s.
Proof. reflexivity. Qed.

Lemma append_cons c s1 s2 : String c s1 +:+ s2 = String c (s1 +:+ s2).
Proof. reflexivity. Qed.

Lemma append_nil_r s : s +:+ "" = s.
Proof. induction s; rewrite ?append_cons; f_equal; auto. Qed.

Lemma append_assoc s1 s2 s3 : (s1 +:+ s2) +:+ s3 = s1 +:+ s2 +:+ s3.
Proof. induction s1; rewrite ?append_cons, ?append_nil_l; f_equal; auto. Qed.

Lemma length_append s1 s2 :
  String.length (s1 +:+ s2) = (String.length s1 + String.length s2)%nat.
Proof. induction s1; rewrite ?append_cons, ?append_nil_l; simpl; auto. Qed.

Lemma append_inv_r s1 s2 r : s1 +:+ r = s2 +:+ r → s1 = s2.
Proof.
  revert s2. induction s1 as [|a s1 IH]; intros [|b s2] H;
    rewrite ?append_cons, ?append_nil_l in H.
  - done.
  - apply (f_equal String.length) in H. simpl in H.
    rewrite length_append in H. lia.
  - apply (f_equal String.length) in H. simpl in H.
    rewrite length_append in H. lia.
  - injection H as -> H. f_equal. by apply IH.
Qed.

Lemma startswith_spec p s : startswith p s = true ↔ ∃ r, s = p +:+ r.
Proof.
  revert s. induction p as [|a p IH]; intros s; simpl.
  - split; [intros _; by exists s | done].
  - destruct s as [|b s].
    + split; [done | intros [r Hr]; discriminate].
    + destruct (Ascii.eqb_spec a b) as [->|Hne]; simpl.
      * rewrite IH. split; intros [r Hr]; exists r;
          rewrite ?append_cons in *; congruence.
      * split; [done | intros [r Hr]; rewrite append_cons in Hr; congruence].
Qed.

Lemma occurs_nil c : ¬ occurs c "".
Proof. intros [[|x a] [b H]]; discriminate. Qed.

Lemma occurs_cons c x s : occurs c (String x s) ↔ x = c ∨ occurs c s.
Proof.
  split.
  - intros [[|y a] [b H]]; simpl in H; injection H as -> ->; [by left|].
    right. by exists a, b.
  - intros [->|[a [b ->]]]; [by exists "", s | by exists (String x a), b].
Qed.

Lemma contains_char c s : contains (String c "") s = true ↔ occurs c s.
Proof.
  induction s as [|x s IH]; simpl.
  - split; [done | by intros ?%occurs_nil].
  - rewrite occurs_cons, <- IH.
    destruct (Ascii.eqb_spec c x) as [->|Hne]; simpl.
    + split; [by left | done].
    + split; [by right | intros [->|?]; done].
Qed.

Lemma contains_char_false c s : contains (String c "") s = false ↔ ¬ occurs c s.
Proof. rewrite <- contains_char. by destruct (contains _ s). Qed.

Lemma occurs_lstrip c s : isspace c = false → occurs c (lstrip s) ↔ occurs c s.
Proof.
  intros Hc. induction s as [|x s IH]; simpl; [done|].
  destruct (isspace x) eqn:Hx; [|done].
  rewrite IH, occurs_cons. split; [by right | intros [->|?]; [congruence|done]].
Qed.

Lemma occurs_rstrip c s : isspace c = false → occurs c (rstrip s) ↔ occurs c s.
Proof.
  intros Hc. induction s as [|x s IH]; simpl; [done|].
  rewrite occurs_cons. destruct (rstrip s) as [|y r] eqn:Hr.
  - destruct (isspace x) eqn:Hx.
    + split; [by intros ?%occurs_nil|].
      intros [->|H]; [congruence|]. by apply IH in H.
    + rewrite occurs_cons. split; [intros [?|?%occurs_nil]; [by left|done]|].
      intros [?|H]; [by left|]. apply IH in H. by apply occurs_nil in H.
  - rewrite occurs_cons, IH. done.
Qed.

Lemma occurs_strip c s : isspace c = false → occurs c (strip s) ↔ occurs c s.
Proof. intros Hc. unfold strip. by rewrite occurs_lstrip, occurs_rstrip. Qed.

(** [split(c, 1)] cuts at the first occurrence of [c]. *)
Lemma split1_cut c k v :
  ¬ occurs c k → split1 c (k +:+ String c v) = [k; v].
Proof.
  induction k as [|x k IH]; simpl; intros Hk.
  - by rewrite Ascii.eqb_refl.
  - destruct (Ascii.eqb_spec x c) as [->|Hne].
    + exfalso. apply Hk, occurs_cons. by left.
    + rewrite IH; [done|]. intros H. apply Hk, occurs_cons. by right.
Qed.

Lemma split1_occurs c s :
  occurs c s → ∃ k v, s = k +:+ String c v ∧ ¬ occurs c k ∧ split1 c s = [k; v].
Proof.
  induction s as [|x s IH]; [by intros ?%occurs_nil|].
  intros H. destruct (Ascii.eqb_spec x c) as [->|Hne].
  - exists "", s. split; [done|]. split; [apply occurs_nil|].
    simpl. by rewrite Ascii.eqb_refl.
  - apply occurs_cons in H as [?|H]; [done|].
    destruct (IH H) as (k & v & -> & Hk & Hs).
    exists (String x k), v. split; [done|]. split.
    + rewrite occurs_cons. intros [?|?]; done.
    + apply (split1_cut c (String x k) v).
      rewrite occurs_cons. intros [?|?]; done.
Qed.

Lemma split1_no_occurs c s : ¬ occurs c s → split1 c s = [s].
Proof.
  induction s as [|x s IH]; simpl; [done|]. intros H.
  destruct (Ascii.eqb_spec x c) as [->|Hne].
  - exfalso. apply H, occurs_cons. by left.
  - rewrite IH; [done|]. intros ?. apply H, occurs_cons. by right.
Qed.

Lemma split_cons c s : ∃ w ws, split c s = w :: ws.
Proof.
  induction s as [|x s (w & ws & IH)]; simpl; [by eexists _, _|].
  destruct (Ascii.eqb x c); [by eexists _, _|]. rewrite IH. by eexists _, _.
Qed.

Lemma split_snoc c text line :
  ¬ occurs c line → split c (text +:+ String c line) = split c text ++ [line].
Proof.
  intros Hline. induction text as [|x text IH].
  - rewrite append_nil_l. simpl. rewrite Ascii.eqb_refl. f_equal.
    induction line as [|y line IH]; [done|]. simpl.
    destruct (Ascii.eqb_spec y c) as [->|Hne].
    + exfalso. apply Hline, occurs_cons. by left.
    + rewrite IH; [done|]. intros ?. apply Hline, occurs_cons. by right.
  - rewrite append_cons. simpl. destruct (Ascii.eqb x c); rewrite IH; [done|].
    by destruct (split_cons c text) as (w & ws & ->).
Qed.

Lemma truthy_spec s : truthy s = true ↔ s ≠ "".
Proof. destruct s; simpl; split; done. Qed.

Lemma colon_not_space : isspace ":" = false.
Proof. reflexivity. Qed.
End string_facts.

(** From here on the string primitives are used through their lemmas. *)
Global Arguments startswith : simpl never.
Global Arguments contains : simpl never.
Global Arguments strip : simpl never.
Global Arguments split : simpl never.
Global Arguments split1 : simpl never.
Global Arguments replace : simpl never.
Global Arguments int : simpl never.
Global Arguments float : simpl never.
Global Arguments lt_minus_10 : simpl never.

(** ** [parse_nodes] *)

Section parse_nodes_facts.
Import Lines.

Lemma startswith_false p s : startswith p s = false ↔ ¬ ∃ r, s = p +:+ r.
Proof. rewrite <- startswith_spec. by destruct (startswith p s). Qed.

Lemma is_header_spec line : is_header line = true ↔ header line.
Proof.
  unfold is_header, header, indented.
  rewrite andb_true_iff, negb_true_iff, startswith_false, startswith_spec.
  done.
Qed.

Lemma parse_line_header st line :
  header line →
  parse_line st line
  = Ok (ParseState (<[strip line := ∅]> (nodes st)) (Some (strip line))).
Proof.
  intros [Hind Hbang]. unfold parse_line.
  apply startswith_false in Hind as ->.
  apply startswith_spec in Hbang as ->. done.
Qed.

Lemma parse_line_field st line k v c f :
  field line k v → c ≠ "" →
  current_node st = Some c → nodes st !! c = Some f →
  parse_line st line
  = Ok (ParseState (<[c := <[k := v]> f]> (nodes st)) (Some c)).
Proof.
  intros (Hind & k0 & v0 & Hs & Hk0 & Hk & Hv & -> & ->) Hc Hcur Hf.
  unfold parse_line.
  apply startswith_spec in Hind as ->.
  assert (occurs ":" line) as Hocc.
  { apply (occurs_strip ":" line colon_not_space). rewrite Hs. by exists k0, v0. }
  apply contains_char in Hocc as ->.
  rewrite Hs, (split1_cut _ _ _ Hk0), Hcur. simpl.
  apply truthy_spec in Hc as ->, Hk as ->, Hv as ->. simpl.
  by rewrite Hf.
Qed.

Lemma parse_line_dropped st line k v :
  field line k v → current_node st = None → parse_line st line = Ok st.
Proof.
  intros (Hind & k0 & v0 & Hs & Hk0 & _) Hcur. unfold parse_line.
  apply startswith_spec in Hind as ->.
  destruct (contains ":" line); [|done].
  by rewrite Hs, (split1_cut _ _ _ Hk0), Hcur.
Qed.

Lemma parse_line_ignored st line :
  ¬ header line → (∀ k v, ¬ field line k v) → parse_line st line = Ok st.
Proof.
  intros Hh Hf. unfold parse_line.
  destruct (startswith "  " line) eqn:Hind.
  - destruct (contains ":" line) eqn:Hocc; [|done].
    apply contains_char, (occurs_strip ":" line colon_not_space) in Hocc.
    destruct (split1_occurs _ _ Hocc) as (k0 & v0 & Hs & Hk0 & ->).
    destruct (truthy_node (current_node st) && truthy k0 && truthy v0)
      eqn:Htr; [|done].
    apply andb_true_iff in Htr as [[_ Hk]%andb_true_iff Hv].
    exfalso. apply (Hf (strip k0) (strip v0)). split.
    + by apply startswith_spec.
    + exists k0, v0. by rewrite <- !truthy_spec.
  - destruct (startswith "!" (strip line)) eqn:Hbang; [|done].
    exfalso. apply Hh, is_header_spec. unfold is_header.
    by rewrite Hind, Hbang.
Qed.

Lemma field_dec line : (∃ k v, field line k v) ∨ (∀ k v, ¬ field line k v).
Proof.
  destruct (startswith "  " line) eqn:Hind; cycle 1.
  { right. intros k v [Hi _]. apply startswith_spec in Hi. congruence. }
  destruct (contains ":" (strip line)) eqn:Hocc; cycle 1.
  { right. intros k v (_ & k0 & v0 & Hs & _).
    apply contains_char_false in Hocc. apply Hocc. by exists k0, v0. }
  apply contains_char in Hocc.
  destruct (split1_occurs _ _ Hocc) as (k0 & v0 & Hs & Hk0 & Hcut).
  destruct (decide (k0 ≠ "" ∧ v0 ≠ "")) as [[Hk Hv]|Hemp].
  - left. exists (strip k0), (strip v0). split; [by apply startswith_spec|].
    by exists k0, v0.
  - right. intros k v (_ & k1 & v1 & Hs1 & Hk1 & Hk & Hv & _).
    rewrite Hs1, (split1_cut _ _ _ Hk1) in Hcut.
    injection Hcut as -> ->. by apply Hemp.
Qed.

(** Every line is a header, carries a field, or is ignored; so a step
    from a well-formed state never raises and keeps the invariant. *)
Lemma parse_line_wf st line :
  wf st →
  ∃ st', parse_line st line = Ok st' ∧ wf st' ∧
    dom (nodes st') = dom (nodes st) ∪
      (if is_header line then {[strip line]} else ∅).
Proof.
  intros Hwf. destruct (is_header line) eqn:Hh.
  - apply is_header_spec in Hh. rewrite (parse_line_header _ _ Hh).
    eexists. split; [done|]. split.
    + intros c [= <-]. simpl. destruct Hh as [_ [r ->]].
      split; [done|]. rewrite lookup_insert_eq. by eexists.
    + simpl. by rewrite dom_insert_L, (comm_L (∪)).
  - assert (¬ header line) as Hnh.
    { rewrite <- is_header_spec. by rewrite Hh. }
    rewrite union_empty_r_L.
    destruct (field_dec line) as [(k & v & Hf)|Hnf].
    + destruct (current_node st) as [c|] eqn:Hcur.
      * destruct (Hwf c Hcur) as [Hc [f Hf']].
        rewrite (parse_line_field _ _ _ _ _ _ Hf Hc Hcur Hf').
        eexists. split; [done|]. split.
        -- intros c' [= <-]. simpl. split; [done|].
           rewrite lookup_insert_eq. by eexists.
        -- simpl. rewrite dom_insert_L.
           apply subseteq_union_1_L, singleton_subseteq_l, elem_of_dom.
           by eexists.
      * rewrite (parse_line_dropped _ _ _ _ Hf Hcur). by exists st.
    + rewrite (parse_line_ignored _ _ Hnh Hnf). by exists st.
Qed.

Lemma parse_lines_wf lines : ∀ st,
  wf st →
  ∃ st', parse_lines st lines = Ok st' ∧ wf st' ∧
    dom (nodes st') = dom (nodes st) ∪
      list_to_set (strip <$> filter (λ line, is_header line = true) lines).
Proof.
  induction lines as [|line rest IH]; intros st Hwf.
  - exists st. split; [done|]. split; [done|]. simpl.
    by rewrite union_empty_r_L.
  - destruct (parse_line_wf st line Hwf) as (st1 & Hst1 & Hwf1 & Hdom1).
    destruct (IH st1 Hwf1) as (st' & Hst' & Hwf' & Hdom').
    exists st'. split; [|split; [done|]].
    + simpl. by rewrite Hst1.
    + rewrite Hdom', Hdom1, filter_cons.
      destruct (is_header line) eqn:Hh.
      * rewrite decide_True by done. simpl. by rewrite (assoc_L (∪)).
      * rewrite decide_False by done. by rewrite union_empty_r_L.
Qed.

Lemma wf_init : wf (ParseState ∅ None).
Proof. intros c [=]. Qed.

Lemma parse_lines_snoc st pre line :
  parse_lines st (pre ++ [line])
  = st' ← parse_lines st pre; parse_line st' line.
Proof.
  revert st. induction pre as [|l pre IH]; intros st; simpl.
  - by destruct (parse_line st line).
  - destruct (parse_line st l) as [st1|e]; simpl; [apply IH|done].
Qed.

(** C9: [parse_nodes] returns a mapping for every input text; neither the
    tuple assignment nor the dictionary update can raise. *)
Theorem parse_nodes_never_raises (output : string) :
  ∃ nodes, parse_nodes output = Ok nodes.
Proof.
  unfold parse_nodes.
  destruct (parse_lines_wf (split "010" output) _ wf_init) as (st & -> & _).
  by exists (nodes st).
Qed.

(** C8 (as amended): the keys of the mapping that [parse_nodes] returns are
    exactly the trimmed header lines of the text; so the mapping has N
    entries when the text has N header lines that are pairwise distinct
    after trimming. *)
Theorem parse_nodes_keys (output : string) :
  ∃ nodes, parse_nodes output = Ok nodes ∧
    dom nodes = list_to_set (headers output) ∧
    (NoDup (headers output) → size nodes = length (headers output)).
Proof.
  unfold parse_nodes, headers.
  destruct (parse_lines_wf (split "010" output) _ wf_init)
    as (st & -> & _ & Hdom).
  exists (nodes st). split; [done|]. simpl in Hdom.
  rewrite dom_empty_L, union_empty_l_L in Hdom. split; [done|].
  intros Hnd. rewrite <- size_dom, Hdom. by apply size_list_to_set.
Qed.

(** C4 (as amended): how [parse_nodes] treats the line that follows a
    text. A header (a line not beginning with two spaces whose trimmed
    text begins with [!]) opens a node with an empty field map; a data
    line (beginning with two spaces) whose trimmed text is [k0:v0], cut at
    the first colon with both sides non-empty, stores the trimmed key and
    value in the current node, replacing an earlier value of the key, and
    is dropped when no header came before; every other line is ignored. *)
Theorem parse_nodes_classification (text line : string) (st : parse_state) :
  ¬ occurs "010" line →
  parse_lines (ParseState ∅ None) (split "010" text) = Ok st →
  let result :=
    parse_lines (ParseState ∅ None) (split "010" (text +:+ String "010" line)) in
  (header line →
     result = Ok (ParseState (<[strip line := ∅]> (nodes st)) (Some (strip line))))
  ∧ (∀ k v, field line k v →
       (current_node st = None → result = Ok st) ∧
       (∀ c, current_node st = Some c →
          ∃ f, nodes st !! c = Some f ∧
            result = Ok (ParseState (<[c := <[k := v]> f]> (nodes st)) (Some c))))
  ∧ (¬ header line → (∀ k v, ¬ field line k v) → result = Ok st).
Proof.
  intros Hline Hst result. subst result.
  rewrite (split_snoc _ _ _ Hline), parse_lines_snoc, Hst. simpl.
  destruct (parse_lines_wf (split "010" text) _ wf_init) as (st0 & Hst0 & Hwf & _).
  rewrite Hst in Hst0. injection Hst0 as <-.
  split; [apply parse_line_header|]. split; [|apply parse_line_ignored].
  intros k v Hf. split; [by apply (parse_line_dropped _ _ k v)|].
  intros c Hcur. destruct (Hwf c Hcur) as [Hc [f Hf']].
  exists f. split; [done|]. by apply parse_line_field.
Qed.

(** Three lines that [parse_nodes] reads differently from the words of the
    specification. [ Battery: 5%], indented by one space after the header
    [!a], is a field line there and is stored, and is no data line here.
    [  k:], a data line with an empty value, is stored there and dropped
    here. [ !a], a header indented by one space, is no header there and
    opens a node here. *)
Lemma parse_nodes_one_space_indent :
  (Spec.is_field_line " Battery: 5%" = true ∧
   Spec.parse (text_of ["!a"; " Battery: 5%"])
   = {[ "!a" := {[ "Battery" := "5%" ]} ]} ∧
   parse_nodes (text_of ["!a"; " Battery: 5%"]) = Ok {[ "!a" := ∅ ]})
  ∧ (Spec.is_field_line "  k:" = true ∧
     Spec.parse (text_of ["!a"; "  k:"]) = {[ "!a" := {[ "k" := "" ]} ]} ∧
     parse_nodes (text_of ["!a"; "  k:"]) = Ok {[ "!a" := ∅ ]})
  ∧ (Spec.is_header " !a" = false ∧
     Spec.parse " !a" = ∅ ∧
     parse_nodes " !a" = Ok {[ "!a" := ∅ ]}).
Proof. vm_compute. done. Qed.

Lemma parse_nodes_classification_witness :
  parse_lines (ParseState ∅ None) (split "010" (text_of ["!a"; "  Battery: 5%"]))
  = Ok (ParseState {[ "!a" := {[ "Battery" := "5%" ]} ]} (Some "!a")).
Proof.
  assert (¬ occurs "010" "  Battery: 5%") as Hline.
  { by apply contains_char_false. }
  assert (parse_lines (ParseState ∅ None) (split "010" "!a")
          = Ok (ParseState {[ "!a" := ∅ ]} (Some "!a"))) as Hst.
  { reflexivity. }
  destruct (parse_nodes_classification "!a" "  Battery: 5%" _ Hline Hst)
    as (_ & Hfield & _).
  assert (field "  Battery: 5%" "Battery" "5%") as Hf.
  { split; [by exists "Battery: 5%"|]. exists "Battery", " 5%".
    repeat split; try done. by apply contains_char_false. }
  destruct (Hfield _ _ Hf) as [_ Hstore].
  destruct (Hstore "!a" eq_refl) as (f & Hlook & Hres).
  vm_compute in Hlook. injection Hlook as <-. exact Hres.
Defined.

(** Two header lines [!a] are two well-formed headers and give one entry.
    The line [ !b: c], indented by one space, is a field line and no
    header in the words of the specification, and gives an entry of its
    own: one header, two entries. *)
Lemma parse_nodes_repeated_header :
  (length (filter (λ line, Spec.is_header line = true)
                  (split "010" (text_of ["!a"; "!a"]))) = 2%nat ∧
   ∃ nodes, parse_nodes (text_of ["!a"; "!a"]) = Ok nodes ∧ size nodes = 1%nat)
  ∧ (filter (λ line, Spec.is_header line = true)
            (split "010" (text_of ["!a"; " !b: c"])) = ["!a"] ∧
     Spec.is_field_line " !b: c" = true ∧
     parse_nodes (text_of ["!a"; " !b: c"]) = Ok {[ "!a" := ∅; "!b: c" := ∅ ]}).
Proof.
  split; [split; [reflexivity|]|by vm_compute].
  eexists. split; [reflexivity|]. done.
Qed.

Lemma parse_nodes_keys_witness :
  ∃ nodes, parse_nodes (text_of ["!a"; "  Battery: 5%"; "!b"]) = Ok nodes ∧
    size nodes = 2%nat.
Proof.
  destruct (parse_nodes_keys (text_of ["!a"; "  Battery: 5%"; "!b"]))
    as (nodes & Hp & _ & Hsize).
  exists nodes. split; [done|]. apply Hsize. vm_compute.
  apply NoDup_cons. split; [|apply NoDup_singleton].
  intros Hin. apply list_elem_of_singleton in Hin. discriminate.
Defined.
End parse_nodes_facts.

(** ** [parse_node_data] *)

Section parse_node_data_facts.
Import Lines.
Implicit Types (node_id line k v : string) (m : gmap string string).

Lemma parse_node_lines_scan node_id pre tail m :
  (∀ line, line ∈ pre → strip line ≠ node_id) →
  parse_node_lines node_id (pre ++ tail) false m
  = parse_node_lines node_id tail false m.
Proof.
  induction pre as [|l pre IH]; intros Hpre; [done|]. simpl.
  rewrite decide_False by (apply Hpre; left). apply IH.
  intros line Hin. apply Hpre. by right.
Qed.

Lemma parse_node_lines_break node_id line rest m :
  bang line → strip line ≠ node_id →
  parse_node_lines node_id (line :: rest) true m = Ok m.
Proof.
  intros Hb Hne. simpl. rewrite decide_False by done.
  by apply startswith_spec in Hb as ->.
Qed.

Lemma block_field_cut node_id k0 v0 k v :
  ¬ occurs ":" k0 →
  block_field node_id (k0 +:+ String ":" v0) k v → k = strip k0 ∧ v = strip v0.
Proof.
  intros Hk0 (_ & k1 & v1 & Hs & Hk1 & -> & ->).
  apply (f_equal (split1 ":")) in Hs.
  rewrite (split1_cut _ _ _ Hk0), (split1_cut _ _ _ Hk1) in Hs.
  by injection Hs as -> ->.
Qed.

Lemma no_field_nil node_id k : no_field node_id [] k.
Proof. intros line v Hin. by apply elem_of_nil in Hin. Qed.

Lemma no_field_cons node_id line block k :
  no_field node_id (line :: block) k
  ↔ (∀ v, ¬ block_field node_id line k v) ∧ no_field node_id block k.
Proof.
  unfold no_field. split.
  - intros H. split; [intros v; apply H; left|].
    intros l v Hin. apply H. by right.
  - intros [H1 H2] l v [->|Hin]%elem_of_cons; [apply H1 | by apply H2].
Qed.

Lemma last_field_nil node_id k v : ¬ last_field node_id [] k v.
Proof. intros ([|??] & ? & ? & [=] & _). Qed.

Lemma last_field_cons node_id line block k v :
  last_field node_id (line :: block) k v
  ↔ last_field node_id block k v
    ∨ (block_field node_id line k v ∧ no_field node_id block k).
Proof.
  split.
  - intros ([|l b1] & l' & b2 & Heq & Hf & Hno); simpl in Heq;
      injection Heq as -> ->; [by right|].
    left. by exists b1, l', b2.
  - intros [(b1 & l' & b2 & -> & Hf & Hno)|[Hf Hno]].
    + by exists (line :: b1), l', b2.
    + by exists [], line, block.
Qed.

(** The loop inside the block of the target, started with [m0]. *)
Lemma parse_node_lines_block node_id block rest : ∀ m0,
  (∀ line, line ∈ block → strip line = node_id ∨ ¬ bang line) →
  (rest = [] ∨ ∃ l rest', rest = l :: rest' ∧ bang l ∧ strip l ≠ node_id) →
  ∃ m, parse_node_lines node_id (block ++ rest) true m0 = Ok m ∧
    ∀ k v, m !! k = Some v
      ↔ last_field node_id block k v
        ∨ (no_field node_id block k ∧ m0 !! k = Some v).
Proof.
  induction block as [|line block IH]; intros m0 Hblock Hrest.
  - exists m0. split.
    + destruct Hrest as [->|(l & rest' & -> & Hb & Hne)]; [done|].
      by apply parse_node_lines_break.
    + intros k v. split; [intros H; right; split; [apply no_field_nil|done]|].
      intros [H|[_ H]]; [by apply last_field_nil in H|done].
  - assert (∀ l, l ∈ block → strip l = node_id ∨ ¬ bang l) as Hblock'.
    { intros l Hin. apply Hblock. by right. }
    simpl. destruct (decide (strip line = node_id)) as [Heq|Hne].
    { destruct (IH m0 Hblock' Hrest) as (m & Hm & Hspec).
      exists m. split; [done|]. intros k v.
      rewrite Hspec, last_field_cons, no_field_cons.
      assert (∀ v', ¬ block_field node_id line k v') as Hnf.
      { intros v' [Hne' _]. done. }
      split; [intros [?|[? ?]]; [by left; left|by right]|].
      intros [[?|[H _]]|[[_ ?] ?]]; [by left|by apply Hnf in H|by right]. }
    destruct (Hblock line) as [?|Hnb]; [by left|done|].
    assert (startswith "!" line = false) as -> by by apply startswith_false.
    destruct (contains ":" line) eqn:Hocc.
    + apply contains_char in Hocc.
      destruct (split1_occurs _ _ Hocc) as (k0 & v0 & -> & Hk0 & ->).
      destruct (IH (<[strip k0 := strip v0]> m0) Hblock' Hrest)
        as (m & Hm & Hspec).
      exists m. split; [done|]. intros k v.
      rewrite Hspec, last_field_cons, no_field_cons.
      assert (block_field node_id (k0 +:+ String ":" v0) (strip k0) (strip v0))
        as Hline.
      { split; [done|]. by exists k0, v0. }
      destruct (decide (k = strip k0)) as [->|Hk].
      * rewrite lookup_insert_eq. split.
        -- intros [?|[Hno [= <-]]]; [by left; left|]. left. by right.
        -- intros [[?|[Hf Hno]]|[[Hnf _] _]]; [by left| |by apply Hnf in Hline].
           right. split; [done|].
           by destruct (block_field_cut _ _ _ _ _ Hk0 Hf) as [_ ->].
      * rewrite lookup_insert_ne by done.
        assert (∀ v', ¬ block_field node_id (k0 +:+ String ":" v0) k v') as Hnf.
        { intros v' Hf. by destruct (block_field_cut _ _ _ _ _ Hk0 Hf). }
        split; [intros [?|[? ?]]; [by left; left|by right]|].
        intros [[?|[Hf _]]|[[_ ?] ?]]; [by left|by apply Hnf in Hf|by right].
    + apply contains_char_false in Hocc.
      destruct (IH m0 Hblock' Hrest) as (m & Hm & Hspec).
      exists m. split; [done|]. intros k v.
      rewrite Hspec, last_field_cons, no_field_cons.
      assert (∀ v', ¬ block_field node_id line k v') as Hnf.
      { intros v' (_ & k1 & v1 & -> & _). apply Hocc. by exists k1, v1. }
      split; [intros [?|[? ?]]; [by left; left|by right]|].
      intros [[?|[Hf _]]|[[_ ?] ?]]; [by left|by apply Hnf in Hf|by right].
Qed.

(** C5 (as amended): [parse_node_data] returns the empty mapping when no
    line equals the target id after trimming. When [h] is the first such
    line, it returns exactly the fields of the block after [h]: the lines
    up to the end of input or to the next line that begins with [!] and is
    not the target id again. A field is any line of the block with a colon
    (other than the target id itself), cut at its first colon, both sides
    trimmed; the last field of a key gives its value. *)
Theorem parse_node_data_block (output node_id : string) :
  ((∀ line, line ∈ split "010" output → strip line ≠ node_id) →
   parse_node_data output node_id = Ok ∅)
  ∧ (∀ pre h block rest,
       split "010" output = pre ++ h :: block ++ rest →
       (∀ line, line ∈ pre → strip line ≠ node_id) →
       strip h = node_id →
       (∀ line, line ∈ block → strip line = node_id ∨ ¬ bang line) →
       (rest = [] ∨ ∃ l rest', rest = l :: rest' ∧ bang l ∧ strip l ≠ node_id) →
       ∃ node_data, parse_node_data output node_id = Ok node_data ∧
         ∀ k v, node_data !! k = Some v ↔ last_field node_id block k v).
Proof.
  unfold parse_node_data. split.
  - intros Hnone.
    rewrite <- (app_nil_r (split "010" output)).
    by rewrite parse_node_lines_scan.
  - intros pre h block rest -> Hpre Hh Hblock Hrest.
    rewrite (parse_node_lines_scan _ _ _ _ Hpre). simpl.
    rewrite decide_True by done.
    destruct (parse_node_lines_block node_id block rest ∅ Hblock Hrest)
      as (m & Hm & Hspec).
    exists m. split; [done|]. intros k v. rewrite Hspec, lookup_empty.
    split; [intros [?|[_ [=]]]; done | by left].
Qed.

Lemma parse_node_data_block_witness :
  ∃ node_data,
    parse_node_data (text_of ["!a"; "  x: 1"; "!b"; "  y: 2"]) "!a" = Ok node_data ∧
    node_data !! "x" = Some "1" ∧ node_data !! "y" = None.
Proof.
  destruct (parse_node_data_block (text_of ["!a"; "  x: 1"; "!b"; "  y: 2"]) "!a")
    as [_ Hblock].
  destruct (Hblock [] "!a" ["  x: 1"] ["!b"; "  y: 2"]) as (m & Hm & Hspec).
  - reflexivity.
  - intros line Hin. by apply elem_of_nil in Hin.
  - reflexivity.
  - intros line Hin. apply list_elem_of_singleton in Hin as ->. right.
    intros [r Hr]. discriminate.
  - right. exists "!b", ["  y: 2"]. split; [done|]. split; [by exists "b"|done].
  - exists m. split; [done|]. split.
    + apply Hspec. exists [], "  x: 1", []. split; [done|].
      split; [|apply no_field_nil]. split; [done|]. exists "  x", " 1".
      repeat split; try done. by apply contains_char_false.
    + destruct (m !! "y") as [v|] eqn:Hy; [|done].
      apply Hspec in Hy as (b1 & l & b2 & Heq & Hf & _).
      destruct b1 as [|? [|??]]; simplify_eq/=.
      apply (block_field_cut "!a" "  x" " 1") in Hf as [Hk _]; [done|].
      by apply contains_char_false.
Defined.

(** The target header [!a] twice: the mapping also holds the field after
    the second one, beyond the next header line. And a line without
    indentation that has a colon, no field line in the words of the
    specification, is collected as a field. *)
Lemma parse_node_data_repeated_target :
  (Spec.parseSingleNode (text_of ["!a"; "  x: 1"; "!a"; "  y: 2"]) "!a"
   = {[ "x" := "1" ]} ∧
   parse_node_data (text_of ["!a"; "  x: 1"; "!a"; "  y: 2"]) "!a"
   = Ok {[ "x" := "1"; "y" := "2" ]})
  ∧ (Spec.is_field_line "foo: bar" = false ∧
     Spec.parseSingleNode (text_of ["!a"; "foo: bar"]) "!a" = ∅ ∧
     parse_node_data (text_of ["!a"; "foo: bar"]) "!a"
     = Ok {[ "foo" := "bar" ]}).
Proof. vm_compute. done. Qed.
End parse_node_data_facts.

(** ** [check_node_health] *)

Section check_node_health_facts.
Import Classifier.
Implicit Types (self : monitor) (node_id : string) (now : Z)
  (node_data : gmap string string).

Lemma int_raises s e : int s = Raise e → e = ValueError.
Proof. unfold int. by destruct (match strip s with "" => _ | _ => _ end); intros [=]. Qed.

Lemma float_raises s e : float s = Raise e → e = ValueError.
Proof. unfold float. by destruct (if underscores_ok _ _ then _ else _); intros [=]. Qed.

Lemma battery_key_inj n1 n2 : battery_key n1 = battery_key n2 → n1 = n2.
Proof. apply append_inv_r. Qed.

Lemma snr_key_inj n1 n2 : snr_key n1 = snr_key n2 → n1 = n2.
Proof. apply append_inv_r. Qed.

Lemma last_char_append s t : t ≠ "" → last_char (s +:+ t) = last_char t.
Proof.
  intros Ht. induction s as [|c s IH]; [done|].
  rewrite append_cons. simpl. rewrite IH.
  destruct (s +:+ t) eqn:Hst; [|done].
  apply (f_equal String.length) in Hst. rewrite length_append in Hst.
  destruct t; [done|simpl in Hst; lia].
Qed.

Lemma battery_key_ne_snr_key n1 n2 : battery_key n1 ≠ snr_key n2.
Proof.
  intros H. apply (f_equal last_char) in H. unfold battery_key, snr_key in H.
  by rewrite !last_char_append in H.
Qed.

Lemma may_fire_spec self alert_key now :
  may_fire self alert_key now = true ↔ cooldown_over self alert_key now.
Proof.
  unfold may_fire, cooldown_over. destruct (alert_count self !! alert_key) as [t|].
  - rewrite Z.ltb_lt. split; [intros ?; right; by exists t|].
    by intros [[=]|(t' & [= <-] & ?)].
  - split; [by left|done].
Qed.

Lemma contains_truthy p s : p ≠ "" → contains p s = true → truthy s = true.
Proof. destruct p, s; done. Qed.

(** An absent node: at most the offline alert, and no change of state. *)
Lemma check_node_health_absent th self node_id now :
  check_node_health th self node_id ∅ now
  = Ok (if decide (node_id ∈ dom (last_seen self))
        then [Offline now node_id] else [], self).
Proof. unfold check_node_health. rewrite decide_True by done. by case_decide. Qed.

Lemma check_battery_spec th self node_id node_data now alerts :
  let low := low_battery_fires th self node_id node_data now in
  check_battery th self node_id node_data now alerts
  = Ok (alerts ++ from_option (λ b, [BatteryLow now node_id b]) [] low,
        Monitor (last_seen self)
                (from_option (λ b, <[node_id := b]> (battery_status self))
                             (battery_status self) (batteryPercent node_data))
                (match low with
                 | Some _ => <[battery_key node_id := now]> (alert_count self)
                 | None => alert_count self
                 end)).
Proof.
  destruct self as [ls bs ac].
  unfold check_battery, low_battery_fires, batteryPercent.
  destruct (node_data !! "Battery") as [bstr|]; simpl;
    [|by rewrite app_nil_r].
  destruct (contains "%" bstr) eqn:Hc; simpl;
    [|by rewrite andb_false_r, app_nil_r].
  rewrite (contains_truthy "%" bstr) by done. simpl.
  destruct (int (strip (replace "%" "" bstr))) as [b|e] eqn:Hint; simpl.
  - destruct (b <=? th)%Z; simpl; [|by rewrite app_nil_r].
    destruct (may_fire _ _ _); simpl; [done|by rewrite app_nil_r].
  - apply int_raises in Hint as ->. by rewrite app_nil_r.
Qed.

Lemma check_snr_spec self node_id node_data now alerts :
  let weak := weak_signal_fires self node_id node_data now in
  check_snr self node_id node_data now alerts
  = Ok (alerts ++ from_option (λ x, [WeakSignal now node_id x]) [] weak,
        Monitor (last_seen self) (battery_status self)
                (match weak with
                 | Some _ => <[snr_key node_id := now]> (alert_count self)
                 | None => alert_count self
                 end)).
Proof.
  destruct self as [ls bs ac].
  unfold check_snr, weak_signal_fires, snrDb.
  destruct (node_data !! "SNR") as [sstr|]; simpl;
    [|by rewrite app_nil_r].
  destruct (contains "dB" sstr) eqn:Hc; simpl;
    [|by rewrite andb_false_r, app_nil_r].
  rewrite (contains_truthy "dB" sstr) by done. simpl.
  destruct (float (strip (replace "dB" "" sstr))) as [x|e] eqn:Hfl; simpl.
  - destruct (lt_minus_10 x); simpl; [|by rewrite app_nil_r].
    destruct (may_fire _ _ _); simpl; [done|by rewrite app_nil_r].
  - apply float_raises in Hfl as ->. by rewrite app_nil_r.
Qed.

Lemma weak_signal_fires_frame self self' node_id node_data now :
  alert_count self' !! snr_key node_id = alert_count self !! snr_key node_id →
  weak_signal_fires self' node_id node_data now
  = weak_signal_fires self node_id node_data now.
Proof. intros H. unfold weak_signal_fires, may_fire. by rewrite H. Qed.

(** A present node: the battery alert, then the signal alert, each under
    its own suppression entry. *)
Lemma check_node_health_present th self node_id node_data now :
  node_data ≠ ∅ →
  let low := low_battery_fires th self node_id node_data now in
  let weak := weak_signal_fires self node_id node_data now in
  let count1 := match low with
                | Some _ => <[battery_key node_id := now]> (alert_count self)
                | None => alert_count self
                end in
  check_node_health th self node_id node_data now
  = Ok (from_option (λ b, [BatteryLow now node_id b]) [] low
        ++ from_option (λ x, [WeakSignal now node_id x]) [] weak,
        Monitor (<[node_id := now]> (last_seen self))
                (from_option (λ b, <[node_id := b]> (battery_status self))
                             (battery_status self) (batteryPercent node_data))
                (match weak with
                 | Some _ => <[snr_key node_id := now]> count1
                 | None => count1
                 end)).
Proof.
  intros Hne low weak count1. unfold check_node_health.
  rewrite decide_False by done.
  rewrite check_battery_spec. simpl. rewrite check_snr_spec. simpl.
  rewrite (weak_signal_fires_frame self).
  - done.
  - simpl. destruct (low_battery_fires _ _ _ _ _); [|done].
    apply lookup_insert_ne, battery_key_ne_snr_key.
Qed.

Lemma evaluate_all_cons th self node_id node_data now rest :
  evaluate_all th self ((node_id, node_data, now) :: rest)
  = '(alerts, self1) ← check_node_health th self node_id node_data now;
    '(more, self2) ← evaluate_all th self1 rest;
    Ok (alerts :: more, self2).
Proof. reflexivity. Qed.

(** The alerts of a present node have no offline alert among them. *)
Lemma present_alerts_not_offline now node_id (low : option Z) (weak : option pyfloat) :
  offline ∉ category_of <$>
    (from_option (λ b, [BatteryLow now node_id b]) [] low
     ++ from_option (λ x, [WeakSignal now node_id x]) [] weak).
Proof.
  destruct low, weak; simpl; intros H;
    repeat (apply elem_of_cons in H as [H|H]; [discriminate|]);
    by apply elem_of_nil in H.
Qed.

(** One evaluation never raises; it records the node in [last_seen]
    exactly when the node is present. *)
Lemma check_node_health_total th self node_id node_data now :
  ∃ alerts self',
    check_node_health th self node_id node_data now = Ok (alerts, self') ∧
    ∀ n, n ∈ dom (last_seen self')
         ↔ n ∈ dom (last_seen self) ∨ (n = node_id ∧ node_data ≠ ∅).
Proof.
  destruct (decide (node_data = ∅)) as [->|Hne].
  - rewrite check_node_health_absent. eexists _, _. split; [done|].
    intros n. split; [by left | by intros [?|[_ ?]]].
  - rewrite check_node_health_present by done. eexists _, _. split; [done|].
    intros n. simpl. rewrite dom_insert_L, elem_of_union, elem_of_singleton.
    split; [intros [->|?]; [by right|by left] | intros [?|[-> _]]; [by right|by left]].
Qed.

Lemma seen_present_nil n : ¬ seen_present n [].
Proof. intros (d & t & Hin & _). by apply elem_of_nil in Hin. Qed.

Lemma seen_present_cons n node_id node_data now obs :
  seen_present n ((node_id, node_data, now) :: obs)
  ↔ (n = node_id ∧ node_data ≠ ∅) ∨ seen_present n obs.
Proof.
  unfold seen_present. split.
  - intros (d & t & Hin & Hne). apply elem_of_cons in Hin as [[= -> -> ->]|Hin].
    + by left.
    + right. by exists d, t.
  - intros [[-> Hne]|(d & t & Hin & Hne)].
    + exists node_data, now. split; [left|done].
    + exists d, t. split; [by right|done].
Qed.

(** A run never raises, and [last_seen] holds exactly the nodes that were
    there at the start or that some observation of the run saw present. *)
Lemma evaluate_all_total th obs : ∀ self,
  ∃ out self',
    evaluate_all th self obs = Ok (out, self') ∧
    ∀ n, n ∈ dom (last_seen self')
         ↔ n ∈ dom (last_seen self) ∨ seen_present n obs.
Proof.
  induction obs as [|[[node_id node_data] now] obs IH]; intros self.
  - exists [], self. split; [done|]. intros n.
    split; [by left | by intros [?|?%seen_present_nil]].
  - destruct (check_node_health_total th self node_id node_data now)
      as (alerts & self1 & Hcheck & Hseen1).
    destruct (IH self1) as (more & self2 & Hrest & Hseen2).
    exists (alerts :: more), self2. split.
    + rewrite evaluate_all_cons, Hcheck. simpl. by rewrite Hrest.
    + intros n. rewrite Hseen2, Hseen1, seen_present_cons. tauto.
Qed.

Lemma evaluate_all_init_seen th obs out self :
  evaluate_all th init obs = Ok (out, self) →
  ∀ n, n ∈ dom (last_seen self) ↔ seen_present n obs.
Proof.
  intros Hrun n.
  destruct (evaluate_all_total th obs init) as (out' & self' & Hrun' & Hseen).
  rewrite Hrun in Hrun'. injection Hrun' as <- <-.
  rewrite Hseen. simpl. rewrite dom_empty_L.
  split; [intros [?%not_elem_of_empty|?]; done | by right].
Qed.

(** C7: a node that no observation of the run so far saw present, when it
    is evaluated absent, raises no alert (so no offline alert) and leaves
    the state as it is. *)
Theorem never_seen_node_raises_no_offline th obs out self node_id now :
  evaluate_all th init obs = Ok (out, self) →
  ¬ seen_present node_id obs →
  check_node_health th self node_id ∅ now = Ok ([], self).
Proof.
  intros Hrun Hnever. rewrite check_node_health_absent.
  rewrite decide_False; [done|].
  by rewrite (evaluate_all_init_seen _ _ _ _ Hrun).
Qed.

Lemma never_seen_node_witness :
  ∃ out self,
    evaluate_all 20 init [("!b", {[ "User" := "x" ]}, 0%Z); ("!a", ∅, 300%Z)]
    = Ok (out, self) ∧
    check_node_health 20 self "!a" ∅ 600 = Ok ([], self).
Proof.
  destruct (evaluate_all_total 20
              [("!b", {[ "User" := "x" ]}, 0%Z); ("!a", ∅, 300%Z)] init)
    as (out & self & Hrun & _).
  exists out, self. split; [exact Hrun|].
  apply (never_seen_node_raises_no_offline 20 _ out self "!a" 600 Hrun).
  intros (d & t & Hin & Hne).
  apply elem_of_cons in Hin as [[=]|Hin].
  apply list_elem_of_singleton in Hin as [= -> ->]. done.
Defined.

(** C1 (as amended): offline alerts are level-triggered. After any run,
    the evaluation of a node raises the offline alert exactly when the
    node is absent and some observation of the run saw it present; then
    it is the only alert. So on present, present, absent, absent, present
    each of the two absent evaluations raises the offline alert, and the
    present ones raise none. *)
Theorem offline_fires_on_every_absent_evaluation th obs node_id node_data now :
  (∃ out self alerts self',
     evaluate_all th init obs = Ok (out, self) ∧
     check_node_health th self node_id node_data now = Ok (alerts, self') ∧
     (offline ∈ (category_of <$> alerts)
      ↔ node_data = ∅ ∧ seen_present node_id obs) ∧
     (node_data = ∅ → seen_present node_id obs → alerts = [Offline now node_id]))
  ∧ (∀ p1 p2 p3 t1 t2 t3 t4 t5,
       p1 ≠ ∅ → p2 ≠ ∅ → p3 ≠ ∅ →
       ∃ a1 a2 a5 self5,
         evaluate_all th init
           [(node_id, p1, t1); (node_id, p2, t2); (node_id, ∅, t3);
            (node_id, ∅, t4); (node_id, p3, t5)]
         = Ok ([a1; a2; [Offline t3 node_id]; [Offline t4 node_id]; a5], self5) ∧
         (offline ∉ category_of <$> a1) ∧ (offline ∉ category_of <$> a2) ∧
         (offline ∉ category_of <$> a5)).
Proof.
  split.
  - destruct (evaluate_all_total th obs init) as (out & self & Hrun & _).
    pose proof (evaluate_all_init_seen _ _ _ _ Hrun node_id) as Hseen.
    exists out, self. destruct (decide (node_data = ∅)) as [->|Hne].
    + rewrite check_node_health_absent. eexists _, _.
      split; [done|]. split; [done|]. case_decide as Hin.
      * split; [|done]. split; [by rewrite <- Hseen|]. intros _. simpl. left.
      * split; [|by rewrite <- Hseen]. simpl.
        split; [by intros ?%elem_of_nil | by rewrite <- Hseen; intros [_ ?]].
    + rewrite check_node_health_present by done. eexists _, _.
      split; [done|]. split; [done|]. split; [|done].
      split; [by intros ?%present_alerts_not_offline | by intros [? _]].
  - intros p1 p2 p3 t1 t2 t3 t4 t5 Hp1 Hp2 Hp3.
    rewrite evaluate_all_cons, check_node_health_present by done. simpl.
    rewrite check_node_health_present by done. simpl.
    rewrite check_node_health_absent. simpl.
    rewrite decide_True by (rewrite dom_insert_L; apply elem_of_union_l, elem_of_singleton; done).
    simpl. rewrite check_node_health_absent. simpl.
    rewrite decide_True by (rewrite dom_insert_L; apply elem_of_union_l, elem_of_singleton; done).
    simpl. rewrite check_node_health_present by done. simpl.
    eexists _, _, _, _. split; [done|].
    repeat split; apply present_alerts_not_offline.
Qed.

Lemma offline_fires_witness :
  ∃ a1 a2 a5 self5,
    evaluate_all 20 init
      [("!a", {[ "User" := "x" ]}, 0%Z); ("!a", {[ "User" := "x" ]}, 300%Z);
       ("!a", ∅, 600%Z); ("!a", ∅, 900%Z); ("!a", {[ "User" := "x" ]}, 1200%Z)]
    = Ok ([a1; a2; [Offline 600 "!a"]; [Offline 900 "!a"]; a5], self5).
Proof.
  destruct (offline_fires_on_every_absent_evaluation 20 [] "!a" ∅ 0) as [_ Hrun].
  destruct (Hrun {[ "User" := "x" ]} {[ "User" := "x" ]} {[ "User" := "x" ]}
              0%Z 300%Z 600%Z 900%Z 1200%Z)
    as (a1 & a2 & a5 & self5 & Heq & _);
    [by apply insert_non_empty..|].
  by exists a1, a2, a5, self5.
Defined.

(** Present, present, absent, absent, present for the node [!a], from a
    fresh monitor: the second of the two consecutive absent evaluations
    raises the offline alert again. *)
Lemma offline_fires_again_while_absent :
  ∃ self5,
    evaluate_all 20 init
      [("!a", {[ "User" := "x" ]}, 0%Z); ("!a", {[ "User" := "x" ]}, 300%Z);
       ("!a", ∅, 600%Z); ("!a", ∅, 900%Z); ("!a", {[ "User" := "x" ]}, 1200%Z)]
    = Ok ([[]; []; [Offline 600 "!a"]; [Offline 900 "!a"]; []], self5).
Proof. eexists. vm_compute. reflexivity. Qed.

(** What the alert list of one evaluation says about each category. *)
Lemma elem_of_present_alerts a now node_id (low : option Z) (weak : option pyfloat) :
  a ∈ from_option (λ b, [BatteryLow now node_id b]) [] low
      ++ from_option (λ x, [WeakSignal now node_id x]) [] weak
  ↔ (∃ b, low = Some b ∧ a = BatteryLow now node_id b)
    ∨ (∃ x, weak = Some x ∧ a = WeakSignal now node_id x).
Proof.
  rewrite elem_of_app. split.
  - intros [Ha|Ha]; [left; destruct low as [b|] | right; destruct weak as [x|]];
      simpl in Ha; try (by apply elem_of_nil in Ha);
      apply list_elem_of_singleton in Ha; by eexists.
  - intros [(b & -> & ->)|(x & -> & ->)]; [left|right]; simpl;
      by apply list_elem_of_singleton.
Qed.

Lemma low_battery_fires_spec th self node_id node_data now b :
  low_battery_fires th self node_id node_data now = Some b
  ↔ batteryPercent node_data = Some b ∧ (b ≤ th)%Z ∧
    cooldown_over self (battery_key node_id) now.
Proof.
  unfold low_battery_fires. rewrite <- may_fire_spec, <- Z.leb_le.
  destruct (batteryPercent node_data) as [b'|]; simpl;
    [|split; [done | by intros [? _]]].
  split.
  - destruct (b' <=? th)%Z eqn:Hle; [|done].
    destruct (may_fire _ _ _); [|done]. by intros [= <-].
  - by intros ([= ->] & -> & ->).
Qed.




(** C3: the alerts of one evaluation come in the order offline,
    low-battery, weak-signal. The field map
    [{"Battery": "15%", "SNR": "-12.3dB"}] of [!abc123] at 1000, on a
    fresh monitor, gives the low-battery alert and then the weak-signal
    alert, and both suppression entries then read 1000. *)
Theorem alerts_in_fixed_order th self node_id node_data now :
  (∃ alerts self',
     check_node_health th self node_id node_data now = Ok (alerts, self') ∧
     category_of <$> alerts `sublist_of` [offline; low_battery; weak_signal])
  ∧ (∃ self',
       check_node_health 20 init "!abc123"
         {[ "Battery" := "15%"; "SNR" := "-12.3dB" ]} 1000
       = Ok ([BatteryLow 1000 "!abc123" 15;
              WeakSignal 1000 "!abc123" (FDec true 123 (-1))], self') ∧
       alert_count self'
       = {[ "!abc123_battery" := 1000%Z; "!abc123_snr" := 1000%Z ]}).
Proof.
  split.
  - destruct (decide (node_data = ∅)) as [->|Hne].
    + rewrite check_node_health_absent. eexists _, _. split; [done|].
      case_decide; simpl; [|apply sublist_nil_l].
      apply sublist_skip || apply sublist_cons. apply sublist_nil_l.
    + rewrite check_node_health_present by done. eexists _, _. split; [done|].
      apply sublist_cons.
      destruct (low_battery_fires _ _ _ _ _), (weak_signal_fires _ _ _ _);
        simpl; repeat first [apply sublist_skip | apply sublist_nil_l | apply sublist_cons].
  - eexists. split; vm_compute; reflexivity.
Qed.


(** [float] accepts [nan]: the SNR of [{"SNR": "nan dB"}] is present, and
    raises no alert. *)
Lemma snr_nan_is_present :
  snrDb {[ "SNR" := "nan dB" ]} = Some FNan ∧ lt_minus_10 FNan = false.
Proof. by vm_compute. Qed.


(** C10: the suppression keys are injective. Two keys of the same
    category are equal only for equal node ids, and a battery key never
    equals a signal key, also when a node id contains [_]. *)
Theorem alert_keys_injective (n1 n2 : string) :
  (battery_key n1 = battery_key n2 → n1 = n2) ∧
  (snr_key n1 = snr_key n2 → n1 = n2) ∧
  battery_key n1 ≠ snr_key n2.
Proof.
  split; [apply battery_key_inj|].
  split; [apply snr_key_inj | apply battery_key_ne_snr_key].
Qed.

Lemma alert_keys_injective_witness :
  battery_key "!a_snr" ≠ snr_key "!a_battery".
Proof. exact (proj2 (proj2 (alert_keys_injective "!a_snr" "!a_battery"))). Defined.
End check_node_health_facts.

(** * Properties of the further parts *)

Import Runs MonitorLoop Blocks.

(** ** Further properties of [parse_node_data] and [check_node_health] *)

Section monitor_run_facts.
Import Classifier Lines.
Implicit Types (self : monitor) (node_id : string) (now : Z)
  (node_data : gmap string string) (obs : list observation).

Lemma parse_node_lines_total node_id lines : ∀ in_target m,
  ∃ m', parse_node_lines node_id lines in_target m = Ok m'.
Proof.
  induction lines as [|line rest IH]; intros in_target m; simpl; [by eexists|].
  case_decide; [apply IH|]. destruct in_target; [|apply IH].
  destruct (startswith "!" line); [by eexists|].
  destruct (contains ":" line) eqn:Hocc; [|apply IH].
  apply contains_char in Hocc.
  destruct (split1_occurs _ _ Hocc) as (k0 & v0 & _ & _ & ->). apply IH.
Qed.

(** X1: [parse_node_data] returns a mapping for every output text and
    every node id: the tuple assignment [key, value = line.split(':', 1)]
    cannot raise, as it is guarded by [':' in line]. *)
Theorem parse_node_data_never_raises (output node_id : string) :
  ∃ node_data, parse_node_data output node_id = Ok node_data.
Proof. apply parse_node_lines_total. Qed.

Lemma check_node_health_frame th self node_id node_data now :
  ∃ alerts self',
    check_node_health th self node_id node_data now = Ok (alerts, self') ∧
    (∀ a, a ∈ alerts → node_of a = node_id ∧ timestamp_of a = now) ∧
    (∀ k, k ≠ battery_key node_id → k ≠ snr_key node_id →
          alert_count self' !! k = alert_count self !! k) ∧
    (∀ m, m ≠ node_id → agree_on m self self').
Proof.
  destruct (decide (node_data = ∅)) as [->|Hne].
  - rewrite check_node_health_absent. eexists _, _. split; [done|].
    split_and!; [|done|done].
    intros a. case_decide; [|by intros ?%elem_of_nil].
    by intros ->%list_elem_of_singleton.
  - rewrite check_node_health_present by done. eexists _, _. split; [done|].
    set (low := low_battery_fires th self node_id node_data now).
    set (weak := weak_signal_fires self node_id node_data now).
    assert (∀ k, k ≠ battery_key node_id → k ≠ snr_key node_id →
              (match weak with
               | Some _ => <[snr_key node_id := now]>
                             (match low with
                              | Some _ => <[battery_key node_id := now]> (alert_count self)
                              | None => alert_count self
                              end)
               | None => match low with
                         | Some _ => <[battery_key node_id := now]> (alert_count self)
                         | None => alert_count self
                         end
               end) !! k = alert_count self !! k) as Hcount.
    { intros k Hb Hs. destruct weak, low;
        rewrite ?lookup_insert_ne by done; done. }
    split_and!.
    + intros a [(b & _ & ->)|(x & _ & ->)]%elem_of_present_alerts; done.
    + done.
    + intros m Hm. unfold agree_on. simpl.
      rewrite lookup_insert_ne by done. split; [done|]. split.
      * destruct (batteryPercent node_data); simpl; [|done].
        by rewrite lookup_insert_ne.
      * split; symmetry; apply Hcount.
        -- by intros ?%battery_key_inj.
        -- apply battery_key_ne_snr_key.
        -- intros ?. by eapply battery_key_ne_snr_key.
        -- by intros ?%snr_key_inj.
Qed.

(** X2: one evaluation concerns one node only. Its alerts name the
    evaluated node and the clock reading of the evaluation; of
    [alert_count] it changes at most the two entries of that node; and the
    entries of every other node in [last_seen], [battery_status] and
    [alert_count] stay as they were. *)
Theorem check_node_health_touches_one_node th self node_id node_data now :
  ∃ alerts self',
    check_node_health th self node_id node_data now = Ok (alerts, self') ∧
    (∀ a, a ∈ alerts → node_of a = node_id ∧ timestamp_of a = now) ∧
    (∀ k, k ≠ battery_key node_id → k ≠ snr_key node_id →
          alert_count self' !! k = alert_count self !! k) ∧
    (∀ m, m ≠ node_id → agree_on m self self').
Proof. apply check_node_health_frame. Qed.

Lemma spaced_snoc hist a' :
  spaced hist →
  (∀ a k, a ∈ hist → alert_key a = Some k → alert_key a' = Some k →
          (3600 < timestamp_of a' - timestamp_of a)%Z) →
  spaced (hist ++ [a']).
Proof.
  intros Hsp Hnew l1 a l2 a2 l3 k Heq Ha Ha2.
  destruct l3 as [|x l3 _] using rev_ind.
  - replace (l1 ++ a :: l2 ++ [a2]) with ((l1 ++ a :: l2) ++ [a2]) in Heq
      by (by rewrite <- app_assoc).
    apply app_inj_tail in Heq as [-> ->].
    apply (Hnew a k); [|done..]. apply elem_of_app. right. left.
  - replace (l1 ++ a :: l2 ++ a2 :: l3 ++ [x])
      with ((l1 ++ a :: l2 ++ a2 :: l3) ++ [x]) in Heq
      by (rewrite <- !app_assoc; simpl; by rewrite <- !app_assoc).
    apply app_inj_tail in Heq as [-> ->]. by apply (Hsp l1 a l2 a2 l3 k).
Qed.

(** An alert goes out under its cooldown and its entry is set. *)
Lemma cover_fire count hist a k :
  entries_cover count hist → spaced hist →
  alert_key a = Some k →
  (count !! k = None
   ∨ ∃ fired, count !! k = Some fired ∧ (3600 < timestamp_of a - fired)%Z) →
  entries_cover (<[k := timestamp_of a]> count) (hist ++ [a])
  ∧ spaced (hist ++ [a]).
Proof.
  intros Hcov Hsp Hk Hcool.
  assert (∀ a0, a0 ∈ hist → alert_key a0 = Some k →
            (3600 < timestamp_of a - timestamp_of a0)%Z) as Hold.
  { intros a0 Hin Hk0. destruct (Hcov a0 k Hin Hk0) as (fired & Hf & Hor).
    destruct Hcool as [Hn|(fired' & Hf' & Hlt)]; [congruence|].
    rewrite Hf in Hf'. injection Hf' as <-. lia. }
  split.
  - intros a0 k0 [Hin|Hin]%elem_of_app Hk0;
      [|apply list_elem_of_singleton in Hin as ->].
    + destruct (decide (k0 = k)) as [->|Hne].
      * rewrite lookup_insert_eq. eexists. split; [done|]. right.
        by apply Hold.
      * rewrite lookup_insert_ne by done. by apply Hcov.
    + rewrite Hk in Hk0. injection Hk0 as <-. rewrite lookup_insert_eq.
      eexists. split; [done|]. by left.
  - apply spaced_snoc; [done|]. intros a0 k0 Hin Hk0 Hk0'.
    rewrite Hk in Hk0'. injection Hk0' as <-. by apply Hold.
Qed.

(** An alert without a key changes nothing for the throttled ones. *)
Lemma cover_unkeyed count hist a :
  entries_cover count hist → spaced hist → alert_key a = None →
  entries_cover count (hist ++ [a]) ∧ spaced (hist ++ [a]).
Proof.
  intros Hcov Hsp Hk. split.
  - intros a0 k0 [Hin|Hin]%elem_of_app Hk0; [by apply Hcov|].
    apply list_elem_of_singleton in Hin as ->. congruence.
  - apply spaced_snoc; [done|]. intros; congruence.
Qed.

Lemma weak_signal_fires_cooldown self node_id node_data now x :
  weak_signal_fires self node_id node_data now = Some x →
  cooldown_over self (snr_key node_id) now.
Proof.
  unfold weak_signal_fires. destruct (snrDb node_data) as [x'|]; [|done].
  simpl. destruct (lt_minus_10 x'); [|done].
  destruct (may_fire _ _ _) eqn:Hfire; [|done]. intros _.
  by apply may_fire_spec.
Qed.

Lemma check_node_health_cover th self node_id node_data now hist :
  entries_cover (alert_count self) hist → spaced hist →
  ∃ alerts self',
    check_node_health th self node_id node_data now = Ok (alerts, self') ∧
    entries_cover (alert_count self') (hist ++ alerts) ∧
    spaced (hist ++ alerts).
Proof.
  intros Hcov Hsp. destruct (decide (node_data = ∅)) as [->|Hne].
  - rewrite check_node_health_absent. eexists _, _. split; [done|].
    case_decide; [by apply cover_unkeyed | by rewrite app_nil_r].
  - rewrite check_node_health_present by done. eexists _, _. split; [done|].
    simpl.
    destruct (low_battery_fires th self node_id node_data now) as [b|] eqn:Hlow;
      simpl.
    + apply low_battery_fires_spec in Hlow as (_ & _ & Hcool).
      destruct (cover_fire _ _ (BatteryLow now node_id b) _ Hcov Hsp eq_refl Hcool)
        as [Hcov1 Hsp1]. simpl in Hcov1.
      destruct (weak_signal_fires self node_id node_data now) as [x|] eqn:Hweak;
        simpl; [|done].
      apply weak_signal_fires_cooldown in Hweak.
      assert (battery_key node_id ≠ snr_key node_id) as Hkeys
        by apply battery_key_ne_snr_key.
      change (hist ++ [BatteryLow now node_id b; WeakSignal now node_id x])
        with (hist ++ [BatteryLow now node_id b] ++ [WeakSignal now node_id x]).
      rewrite app_assoc.
      apply (cover_fire _ _ (WeakSignal now node_id x) _ Hcov1 Hsp1 eq_refl).
      rewrite lookup_insert_ne by done. exact Hweak.
    + destruct (weak_signal_fires self node_id node_data now) as [x|] eqn:Hweak;
        simpl; [|by rewrite app_nil_r].
      apply weak_signal_fires_cooldown in Hweak.
      by apply (cover_fire _ _ (WeakSignal now node_id x) _ Hcov Hsp eq_refl).
Qed.

Lemma evaluate_all_cover th obs : ∀ self hist,
  entries_cover (alert_count self) hist → spaced hist →
  ∃ out self',
    evaluate_all th self obs = Ok (out, self') ∧
    entries_cover (alert_count self') (hist ++ concat out) ∧
    spaced (hist ++ concat out).
Proof.
  induction obs as [|[[node_id node_data] now] obs IH]; intros self hist Hcov Hsp.
  - exists [], self. simpl. by rewrite app_nil_r.
  - destruct (check_node_health_cover th self node_id node_data now hist Hcov Hsp)
      as (alerts & self1 & Hcheck & Hcov1 & Hsp1).
    destruct (IH self1 _ Hcov1 Hsp1) as (more & self2 & Hrun & Hcov2 & Hsp2).
    exists (alerts :: more), self2. split.
    + rewrite evaluate_all_cons, Hcheck. simpl. by rewrite Hrun.
    + simpl. by rewrite app_assoc.
Qed.

(** X3: the throttle holds over a whole run, whatever the clock readings
    are. Of two low-battery alerts for the same node, or two weak-signal
    alerts for the same node, the later one carries a clock reading more
    than 3600 after that of the earlier one. *)
Theorem repeated_alerts_are_an_hour_apart th obs :
  ∃ out self,
    evaluate_all th init obs = Ok (out, self) ∧
    ∀ l1 a l2 a' l3, concat out = l1 ++ a :: l2 ++ a' :: l3 →
      category_of a ≠ offline → category_of a' = category_of a →
      node_of a' = node_of a →
      (3600 < timestamp_of a' - timestamp_of a)%Z.
Proof.
  destruct (evaluate_all_cover th obs init []) as (out & self & Hrun & _ & Hsp).
  { intros a k Hin. by apply elem_of_nil in Hin. }
  { intros [|??] ???? ? [=]. }
  exists out, self. split; [done|].
  intros l1 a l2 a' l3 Heq Hcat Hcat' Hnode. simpl in Hsp.
  destruct a as [t n|t n b|t n x], a' as [t' n'|t' n' b'|t' n' x'];
    simpl in *; try done; subst n'.
  - by apply (Hsp l1 _ l2 _ l3 (battery_key n) Heq).
  - by apply (Hsp l1 _ l2 _ l3 (snr_key n) Heq).
Qed.

Lemma agree_on_refl n self : agree_on n self self.
Proof. by repeat split. Qed.

Lemma agree_on_sym n s1 s2 : agree_on n s1 s2 → agree_on n s2 s1.
Proof. intros (? & ? & ? & ?). by repeat split. Qed.

Lemma agree_on_trans n s1 s2 s3 :
  agree_on n s1 s2 → agree_on n s2 s3 → agree_on n s1 s3.
Proof.
  intros (? & ? & ? & ?) (? & ? & ? & ?). repeat split; by etrans.
Qed.

Lemma low_battery_fires_frame th self self' node_id node_data now :
  alert_count self' !! battery_key node_id
  = alert_count self !! battery_key node_id →
  low_battery_fires th self' node_id node_data now
  = low_battery_fires th self node_id node_data now.
Proof. intros H. unfold low_battery_fires, may_fire. by rewrite H. Qed.

(** Monitors that agree on a node give it the same alerts and agree on it
    afterwards. *)
Lemma check_node_health_agree th s1 s2 node_id node_data now :
  agree_on node_id s1 s2 →
  ∃ alerts s1' s2',
    check_node_health th s1 node_id node_data now = Ok (alerts, s1') ∧
    check_node_health th s2 node_id node_data now = Ok (alerts, s2') ∧
    agree_on node_id s1' s2'.
Proof.
  intros (Hseen & Hlevel & Hbat & Hsnr).
  destruct (decide (node_data = ∅)) as [->|Hne].
  - rewrite !check_node_health_absent.
    assert (node_id ∈ dom (last_seen s1) ↔ node_id ∈ dom (last_seen s2)) as Hdom.
    { by rewrite !elem_of_dom, Hseen. }
    eexists _, s1, s2. split; [done|]. split; [|by repeat split].
    do 2 case_decide; tauto.
  - rewrite !check_node_health_present by done.
    rewrite (low_battery_fires_frame th s2 s1) by done.
    rewrite (weak_signal_fires_frame s2 s1) by done.
    eexists _, _, _. split; [done|]. split; [done|].
    assert (battery_key node_id ≠ snr_key node_id) as Hkeys
      by apply battery_key_ne_snr_key.
    unfold agree_on. simpl. rewrite !lookup_insert_eq. split; [done|]. split.
    + destruct (batteryPercent node_data); simpl; [|done].
      by rewrite !lookup_insert_eq.
    + destruct (low_battery_fires th s2 node_id node_data now),
               (weak_signal_fires s2 node_id node_data now);
        rewrite ?lookup_insert_eq, ?(lookup_insert_ne _ (snr_key node_id)),
          ?(lookup_insert_ne _ (battery_key node_id)), ?lookup_insert_eq by done;
        done.
Qed.

Lemma alerts_about_cons n o obs alerts out :
  alerts_about n (o :: obs) (alerts :: out)
  = if decide (about n o) then alerts :: alerts_about n obs out
    else alerts_about n obs out.
Proof.
  unfold alerts_about. simpl. rewrite filter_cons. simpl.
  by case_decide.
Qed.

Lemma evaluate_all_agree th n obs : ∀ s1 s2,
  agree_on n s1 s2 →
  ∃ out s1' out_n s2',
    evaluate_all th s1 obs = Ok (out, s1') ∧
    evaluate_all th s2 (filter (about n) obs) = Ok (out_n, s2') ∧
    out_n = alerts_about n obs out ∧ agree_on n s1' s2'.
Proof.
  induction obs as [|[[m d] t] obs IH]; intros s1 s2 Hag.
  - by exists [], s1, [], s2.
  - rewrite filter_cons. unfold about at 1. simpl.
    destruct (decide (m = n)) as [->|Hne].
    + destruct (check_node_health_agree th s1 s2 n d t Hag)
        as (alerts & s1' & s2' & Hc1 & Hc2 & Hag').
      destruct (IH s1' s2' Hag') as (out & s1'' & out_n & s2'' & Hr1 & Hr2 & -> & Hag'').
      exists (alerts :: out), s1'', (alerts :: alerts_about n obs out), s2''.
      rewrite ?evaluate_all_cons, Hc1, Hc2. simpl. rewrite Hr1, Hr2. simpl.
      split; [done|]. split; [done|]. split; [|done].
      rewrite alerts_about_cons. by rewrite decide_True.
    + destruct (check_node_health_frame th s1 m d t)
        as (alerts & s1' & Hc1 & _ & _ & Hframe).
      assert (agree_on n s1' s2) as Hag'.
      { eapply agree_on_trans; [|done]. apply agree_on_sym, Hframe. done. }
      destruct (IH s1' s2 Hag') as (out & s1'' & out_n & s2'' & Hr1 & Hr2 & -> & Hag'').
      exists (alerts :: out), s1'', (alerts_about n obs out), s2''.
      rewrite ?evaluate_all_cons, Hc1. simpl. rewrite Hr1. simpl.
      split; [done|]. split; [done|]. split; [|done].
      rewrite alerts_about_cons. by rewrite decide_False.
Qed.

(** X4: the nodes of a run do not interfere. The alerts that a run gives
    at the evaluations of one node are the alerts of the run that keeps
    only the observations of that node, and the two runs end with the same
    entries for the node. *)
Theorem alerts_of_a_node_ignore_other_nodes th node_id obs :
  ∃ out self out_n self_n,
    evaluate_all th init obs = Ok (out, self) ∧
    evaluate_all th init (filter (about node_id) obs) = Ok (out_n, self_n) ∧
    out_n = alerts_about node_id obs out ∧ agree_on node_id self self_n.
Proof. apply evaluate_all_agree, agree_on_refl. Qed.







End monitor_run_facts.

(** ** The loop of [monitor] *)

Section monitor_loop_facts.
Import Classifier Lines MonitorLoop.
Variable th : Z.
Variable critical_nodes : list string.
Implicit Types (self : monitor) (node_id : string) (f : fetch).

Lemma check_nodes_total output clock nodes : ∀ self i,
  ∃ lines self', check_nodes th self output clock i nodes = Ok (lines, self').
Proof.
  induction nodes as [|node_id rest IH]; intros self i; simpl; [by eexists _, _|].
  destruct (parse_node_lines_total node_id (split "010" output) false ∅)
    as [node_data Hparse].
  unfold parse_node_data. rewrite Hparse. simpl.
  destruct (check_node_health_total th self node_id node_data (clock i))
    as (alerts & self1 & -> & _). simpl.
  destruct (IH self1 (S i)) as (more & self2 & ->). simpl. by eexists _, _.
Qed.

Lemma cycle_total self n f :
  ∃ lines self', cycle th critical_nodes self n f = Ok (lines, self').
Proof.
  unfold cycle. destruct (stdout f) as [output|]; [|by eexists _, _].
  destruct (truthy output); [|by eexists _, _].
  destruct (check_nodes_total output (clock f) critical_nodes self 0)
    as (lines & self' & ->).
  simpl. by eexists _, _.
Qed.

Lemma cycle_not_fetched self n f :
  ¬ fetched f →
  cycle th critical_nodes self n f
  = Ok ([CycleLine (timestamp f) n; FetchFailedLine], self).
Proof.
  intros Hnf. unfold cycle. destruct (stdout f) as [output|] eqn:Hout; [|done].
  destruct (truthy output) eqn:Htr; [|done].
  exfalso. apply Hnf. exists output. split; [done|]. by apply truthy_spec.
Qed.

Lemma cycle_fetched self n f :
  fetched f →
  ∃ output, stdout f = Some output ∧
    cycle th critical_nodes self n f
    = '(lines, self') ← check_nodes th self output (clock f) 0 critical_nodes;
      Ok (CycleLine (timestamp f) n :: lines ++ [EmptyLine], self').
Proof.
  intros (output & Hout & Hne). exists output. split; [done|].
  unfold cycle. rewrite Hout.
  by apply truthy_spec in Hne as ->.
Qed.

Lemma monitor_loop_total self n (fetches : list fetch) :
  ∃ lines self', monitor_loop th critical_nodes self n fetches = Ok (lines, self').
Proof.
  revert self n. induction fetches as [|f rest IH]; intros self n; simpl;
    [by eexists _, _|].
  destruct (cycle_total self (S n) f) as (lines & self1 & ->). simpl.
  destruct (IH self1 (S n)) as (more & self2 & ->). simpl. by eexists _, _.
Qed.

(** X6: the loop is never stopped by an exception of its own making:
    whatever texts the fetches return, and whichever are failures, every
    turn of the loop completes. *)
Theorem monitor_loop_never_raises self n (fetches : list fetch) :
  ∃ lines self', monitor_loop th critical_nodes self n fetches = Ok (lines, self').
Proof. apply monitor_loop_total. Qed.

Lemma filter_report_app (l1 l2 : list printed) :
  filter is_report (l1 ++ l2) = filter is_report l1 ++ filter is_report l2.
Proof. apply filter_app. Qed.

(** X7: a failed fetch (an exception, or an empty text) is no evidence of
    absence. The state after a run of the loop, and the alert and healthy
    lines it prints, are those of the run over the fetches that returned a
    non-empty text. *)
Theorem failed_fetches_change_nothing self n n' (fetches : list fetch) :
  ∃ lines lines' self',
    monitor_loop th critical_nodes self n fetches = Ok (lines, self') ∧
    monitor_loop th critical_nodes self n' (filter fetched fetches)
    = Ok (lines', self') ∧
    filter is_report lines = filter is_report lines'.
Proof.
  revert self n n'. induction fetches as [|f rest IH]; intros self n n'.
  - by exists [], [], self.
  - rewrite filter_cons. simpl. destruct (decide (fetched f)) as [Hf|Hnf].
    + destruct (cycle_fetched self (S n) f Hf) as (output & Hout & ->).
      destruct (cycle_fetched self (S n') f Hf) as (output' & Hout' & Hc).
      rewrite Hout in Hout'. injection Hout' as <-. simpl. rewrite Hc.
      destruct (check_nodes_total output (clock f) critical_nodes self 0)
        as (lines & self1 & ->). simpl.
      destruct (IH self1 (S n) (S n')) as (more & more' & self2 & -> & -> & Heq).
      simpl. eexists _, _, _. split; [done|]. split; [done|].
      rewrite !filter_cons, !filter_report_app, Heq. simpl. done.
    + rewrite (cycle_not_fetched _ _ _ Hnf). simpl.
      destruct (IH self (S n) n') as (more & more' & self2 & -> & -> & Heq).
      simpl. eexists _, _, _. split; [done|]. split; [done|].
      by rewrite !filter_cons.
Qed.

Lemma parse_node_data_not_listed output node_id :
  (∀ line, line ∈ split "010" output → strip line ≠ node_id) →
  parse_node_data output node_id = Ok ∅.
Proof.
  intros Hnone. unfold parse_node_data.
  rewrite <- (app_nil_r (split "010" output)).
  by rewrite parse_node_lines_scan.
Qed.

Local Ltac in_nil :=
  intros; match goal with H : _ ∈ [] |- _ => by apply elem_of_nil in H end.

Lemma check_nodes_unknown n output clock nodes : ∀ self i lines self',
  unknown n self →
  (∀ line, line ∈ split "010" output → strip line ≠ n) →
  check_nodes th self output clock i nodes = Ok (lines, self') →
  unknown n self' ∧
  (∀ a, AlertLine a ∈ lines → node_of a ≠ n) ∧
  (∀ b, HealthyLine n b ∈ lines → b = None) ∧
  (n ∈ nodes → HealthyLine n None ∈ lines).
Proof.
  induction nodes as [|m rest IH]; intros self i lines self' Hun Hnone Hrun.
  { injection Hrun as <- <-. split; [done|].
    split_and!; in_nil. }
  simpl in Hrun. destruct (decide (m = n)) as [->|Hne].
  - rewrite (parse_node_data_not_listed _ _ Hnone) in Hrun. simpl in Hrun.
    rewrite check_node_health_absent in Hrun.
    destruct Hun as [Hseen Hlevel].
    rewrite decide_False in Hrun
      by (rewrite elem_of_dom, Hseen; by intros [? [=]]).
    simpl in Hrun. rewrite Hlevel in Hrun.
    destruct (check_nodes th self output clock (S i) rest)
      as [[more self2]|] eqn:Hrest; [|done].
    simpl in Hrun. injection Hrun as <- <-.
    destruct (IH self (S i) more self2) as (Hun2 & Hal & Hhe & _); [done..|].
    split; [done|]. split_and!.
    + intros a [[=]|Hin]%elem_of_cons. by apply Hal.
    + intros b [[= <-]|Hin]%elem_of_cons; [done|by apply Hhe].
    + intros _. left.
  - destruct (parse_node_data output m) as [d|]; [|done]. simpl in Hrun.
    destruct (check_node_health_frame th self m d (clock i))
      as (alerts & self1 & Hcheck & Hnode & _ & Hframe).
    rewrite Hcheck in Hrun. simpl in Hrun.
    destruct (check_nodes th self1 output clock (S i) rest)
      as [[more self2]|] eqn:Hrest; [|done].
    simpl in Hrun. injection Hrun as <- <-.
    assert (unknown n self1) as Hun1.
    { destruct (Hframe n (not_eq_sym Hne)) as (H1 & H2 & _), Hun as [H3 H4].
      split; congruence. }
    destruct (IH self1 (S i) more self2) as (Hun2 & Hal & Hhe & Hin); [done..|].
    split; [done|]. split_and!.
    + intros a [Ha|Ha]%elem_of_app; [|by apply Hal].
      destruct alerts as [|a0 alerts]; [by apply list_elem_of_singleton in Ha|].
      apply list_elem_of_fmap in Ha as (a' & [= <-] & Ha').
      destruct (Hnode a Ha') as [-> _]. done.
    + intros b [Hb|Hb]%elem_of_app; [|by apply Hhe].
      destruct alerts as [|a0 alerts].
      * apply list_elem_of_singleton in Hb. congruence.
      * by apply list_elem_of_fmap in Hb as (a' & [=] & _).
    + intros [?|Hrest']%elem_of_cons; [done|]. apply elem_of_app. right.
      by apply Hin.
Qed.

Lemma monitor_loop_unknown n fetches : ∀ self k lines self',
  unknown n self →
  (∀ f, f ∈ fetches → not_listed n f) →
  monitor_loop th critical_nodes self k fetches = Ok (lines, self') →
  (∀ a, AlertLine a ∈ lines → node_of a ≠ n) ∧
  (∀ b, HealthyLine n b ∈ lines → b = None) ∧
  (n ∈ critical_nodes → (∃ f, f ∈ fetches ∧ fetched f) →
   HealthyLine n None ∈ lines).
Proof.
  induction fetches as [|f rest IH]; intros self k lines self' Hun Hnl Hrun.
  { injection Hrun as <- <-.
    split_and!; try in_nil.
    intros _ (f & Hin & _). by apply elem_of_nil in Hin. }
  simpl in Hrun.
  assert (∀ f', f' ∈ rest → not_listed n f') as Hnl'.
  { intros f' Hin. apply Hnl. by right. }
  destruct (decide (fetched f)) as [Hf|Hnf].
  - destruct (cycle_fetched self (S k) f Hf) as (output & Hout & Hc).
    rewrite Hc in Hrun. clear Hc.
    destruct (check_nodes th self output (clock f) 0 critical_nodes)
      as [[cl self1]|] eqn:Hcheck; [|done].
    simpl in Hrun.
    destruct (monitor_loop th critical_nodes self1 (S k) rest)
      as [[more self2]|] eqn:Hrest; [|done].
    simpl in Hrun. injection Hrun as <- <-.
    destruct (check_nodes_unknown n output (clock f) critical_nodes
                self 0 cl self1) as (Hun1 & Hal1 & Hhe1 & Hin1); [done| |done|].
    { intros line Hline. apply (Hnl f) with output; [left|done..]. }
    destruct (IH self1 (S k) more self2) as (Hal & Hhe & _); [done..|].
    split_and!.
    + intros a [[=]|[[Ha|Ha]%elem_of_app|Ha]%elem_of_app]%elem_of_cons;
        [by apply Hal1| |by apply Hal].
      by apply list_elem_of_singleton in Ha.
    + intros b [[=]|[[Hb|Hb]%elem_of_app|Hb]%elem_of_app]%elem_of_cons;
        [by apply Hhe1| |by apply Hhe].
      by apply list_elem_of_singleton in Hb.
    + intros Hcrit _. right. apply elem_of_app. left. apply elem_of_app. left.
      by apply Hin1.
  - rewrite (cycle_not_fetched _ _ _ Hnf) in Hrun. simpl in Hrun.
    destruct (monitor_loop th critical_nodes self (S k) rest)
      as [[more self2]|] eqn:Hrest; [|done].
    simpl in Hrun. injection Hrun as <- <-.
    destruct (IH self (S k) more self2) as (Hal & Hhe & Hin); [done..|].
    split_and!.
    + intros a [[=]|[[=]|Ha]%elem_of_cons]%elem_of_cons. by apply Hal.
    + intros b [[=]|[[=]|Hb]%elem_of_cons]%elem_of_cons. by apply Hhe.
    + intros Hcrit (f' & [->|Hin']%elem_of_cons & Hf'); [done|].
      do 2 right. apply Hin; [done|]. by exists f'.
Qed.

(** X8: a critical node that no fetched text ever lists is reported
    healthy. From a fresh monitor, the loop prints no alert for it, every
    healthy line for it shows no battery level ([N/A]), and as soon as one
    fetch succeeds such a line is printed. *)
Theorem never_listed_node_is_reported_healthy node_id fetches lines self' :
  (∀ f, f ∈ fetches → not_listed node_id f) →
  monitor_loop th critical_nodes init 0 fetches = Ok (lines, self') →
  (∀ a, AlertLine a ∈ lines → node_of a ≠ node_id) ∧
  (∀ b, HealthyLine node_id b ∈ lines → b = None) ∧
  (node_id ∈ critical_nodes → (∃ f, f ∈ fetches ∧ fetched f) →
   HealthyLine node_id None ∈ lines).
Proof. intros Hnl Hrun. by apply (monitor_loop_unknown node_id fetches init 0 lines self'). Qed.
End monitor_loop_facts.

Lemma never_listed_node_witness :
  ∃ lines self',
    monitor_loop 20 ["!a"] init 0
      [Fetch (Some (text_of ["!b"; "  Battery: 50%"])) 0 (λ _, 0%Z)]
    = Ok (lines, self') ∧
    HealthyLine "!a" None ∈ lines.
Proof.
  destruct (monitor_loop_total 20 ["!a"] init 0
              [Fetch (Some (text_of ["!b"; "  Battery: 50%"])) 0 (λ _, 0%Z)])
    as (lines & self' & Hrun).
  exists lines, self'. split; [exact Hrun|].
  refine (proj2 (proj2 (never_listed_node_is_reported_healthy 20 ["!a"] "!a"
                          _ lines self' _ Hrun)) _ _).
  - intros f ->%list_elem_of_singleton output line [= <-] Hline.
    vm_compute in Hline.
    apply elem_of_cons in Hline as [->|Hline]; [done|].
    apply list_elem_of_singleton in Hline as ->. done.
  - left.
  - eexists. split; [left|]. eexists. split; [done|done].
Defined.

(** ** Further properties of [parse_nodes] *)

Section strip_facts.
Implicit Types (s r : string) (c : ascii).

Lemma lstrip_head s :
  lstrip s = "" ∨ ∃ c r, lstrip s = String c r ∧ isspace c = false.
Proof.
  induction s as [|c s IH]; simpl; [by left|].
  destruct (isspace c) eqn:Hc; [done|]. right. by exists c, s.
Qed.

Lemma lstrip_keep c s : isspace c = false → lstrip (String c s) = String c s.
Proof. intros Hc. simpl. by rewrite Hc. Qed.

Lemma lstrip_idemp s : lstrip (lstrip s) = lstrip s.
Proof.
  destruct (lstrip_head s) as [->|(c & r & -> & Hc)]; [done|].
  by apply lstrip_keep.
Qed.

Lemma rstrip_cons c s :
  rstrip (String c s)
  = match rstrip s with
    | "" => if isspace c then "" else String c ""
    | r => String c r
    end.
Proof. reflexivity. Qed.

Lemma rstrip_idemp s : rstrip (rstrip s) = rstrip s.
Proof.
  induction s as [|c s IH]; [done|]. rewrite rstrip_cons.
  destruct (rstrip s) as [|c' r] eqn:Hr.
  - destruct (isspace c) eqn:Hc; [done|]. rewrite rstrip_cons. simpl.
    by rewrite Hc.
  - rewrite rstrip_cons, IH. done.
Qed.

Lemma strip_comm s : rstrip (lstrip s) = lstrip (rstrip s).
Proof.
  induction s as [|c s IH]; [done|]. rewrite rstrip_cons. simpl.
  destruct (isspace c) eqn:Hc.
  - rewrite IH. destruct (rstrip s) as [|c' r]; [done|]. simpl. by rewrite Hc.
  - rewrite rstrip_cons.
    destruct (rstrip s) as [|c' r]; rewrite ?Hc; simpl; by rewrite Hc.
Qed.

Lemma strip_idemp s : strip (strip s) = strip s.
Proof.
  unfold strip. by rewrite <- strip_comm, lstrip_idemp, strip_comm, rstrip_idemp.
Qed.

Lemma strip_head c r s : strip s = String c r → isspace c = false.
Proof.
  unfold strip. destruct (lstrip_head (rstrip s)) as [->|(c' & r' & -> & Hc)];
    [done|]. by intros [= <- _].
Qed.

Lemma last_char_rstrip s c : last_char (rstrip s) = Some c → isspace c = false.
Proof.
  induction s as [|x s IH]; [done|]. rewrite rstrip_cons.
  destruct (rstrip s) as [|y r] eqn:Hr.
  - destruct (isspace x) eqn:Hx; [done|]. by intros [= <-].
  - intros H. apply IH. by destruct r.
Qed.

Lemma last_char_strip s c : last_char (strip s) = Some c → isspace c = false.
Proof. unfold strip. rewrite <- strip_comm. apply last_char_rstrip. Qed.

Lemma last_char_occurs s c : last_char s = Some c → occurs c s.
Proof.
  induction s as [|x s IH]; [done|]. simpl. destruct s as [|y s].
  - intros [= <-]. apply occurs_cons. by left.
  - intros H. apply occurs_cons. right. by apply IH.
Qed.

Lemma last_char_None s : last_char s = None → s = "".
Proof.
  induction s as [|x s IH]; [done|]. simpl. destruct s as [|y s]; [done|].
  intros H. by specialize (IH H).
Qed.

Lemma strip_nonempty c s : occurs c s → isspace c = false → strip s ≠ "".
Proof.
  intros Hocc Hc Hemp. apply (occurs_strip c s Hc) in Hocc.
  rewrite Hemp in Hocc. by apply occurs_nil in Hocc.
Qed.

Lemma tidy_strip c s : occurs c s → isspace c = false → tidy (strip s).
Proof. intros Hocc Hc. split; [by eapply strip_nonempty|apply strip_idemp]. Qed.
End strip_facts.

Section parse_nodes_more.
Import Lines.
Implicit Types (st : parse_state) (line k v : string).

(** Both sides of a stored field are tidy. *)
Lemma field_tidy line k v : field line k v → tidy k ∧ tidy v.
Proof.
  intros (_ & k0 & v0 & Hs & _ & Hk0 & Hv0 & -> & ->). split.
  - destruct k0 as [|c k0]; [done|]. rewrite append_cons in Hs.
    apply (tidy_strip c); [apply occurs_cons; by left|].
    by apply strip_head in Hs.
  - destruct (last_char v0) as [c|] eqn:Hlast; [|by apply last_char_None in Hlast].
    apply (tidy_strip c); [by apply last_char_occurs|].
    apply (last_char_strip line).
    rewrite Hs, last_char_append by done.
    change (String ":" v0) with (":" +:+ v0). by rewrite last_char_append.
Qed.

Lemma header_tidy line : header line → (∃ r, strip line = "!" +:+ r) ∧ tidy (strip line).
Proof.
  intros [_ [r Hr]]. split; [by exists r|]. split; [by rewrite Hr|].
  apply strip_idemp.
Qed.

Lemma parse_line_tidy st line st' :
  wf st → all_tidy (nodes st) → parse_line st line = Ok st' →
  all_tidy (nodes st').
Proof.
  intros Hwf Htidy Hstep.
  destruct (field_dec line) as [(k & v & Hf)|Hnf].
  - destruct (current_node st) as [c|] eqn:Hcur.
    + destruct (Hwf c Hcur) as [Hc [f Hf']].
      rewrite (parse_line_field _ _ _ _ _ _ Hf Hc Hcur Hf') in Hstep.
      injection Hstep as <-. simpl. intros id fields Hid.
      destruct (decide (id = c)) as [->|Hne].
      * rewrite lookup_insert_eq in Hid. injection Hid as <-.
        destruct (Htidy c f Hf') as (Hbang & Hc' & Hfields).
        split; [done|]. split; [done|]. intros k' v' Hk'.
        destruct (decide (k' = k)) as [->|Hnek].
        -- rewrite lookup_insert_eq in Hk'. injection Hk' as <-.
           by apply (field_tidy line).
        -- rewrite lookup_insert_ne in Hk' by done. by apply Hfields.
      * rewrite lookup_insert_ne in Hid by done. by apply Htidy.
    + rewrite (parse_line_dropped _ _ _ _ Hf Hcur) in Hstep. by injection Hstep as <-.
  - destruct (is_header line) eqn:Hh.
    + apply is_header_spec in Hh. rewrite (parse_line_header _ _ Hh) in Hstep.
      injection Hstep as <-. simpl. intros id fields Hid.
      destruct (decide (id = strip line)) as [->|Hne].
      * rewrite lookup_insert_eq in Hid. injection Hid as <-.
        destruct (header_tidy _ Hh) as [Hbang Ht].
        split; [done|]. split; [done|]. intros k v. by rewrite lookup_empty.
      * rewrite lookup_insert_ne in Hid by done. by apply Htidy.
    + assert (¬ header line) as Hnh.
      { rewrite <- is_header_spec. by rewrite Hh. }
      rewrite (parse_line_ignored _ _ Hnh Hnf) in Hstep. by injection Hstep as <-.
Qed.

Lemma parse_lines_tidy lines : ∀ st st',
  wf st → all_tidy (nodes st) → parse_lines st lines = Ok st' →
  all_tidy (nodes st').
Proof.
  induction lines as [|line rest IH]; intros st st' Hwf Htidy Hrun.
  - by injection Hrun as <-.
  - simpl in Hrun.
    destruct (parse_line_wf st line Hwf) as (st1 & Hstep & Hwf1 & _).
    rewrite Hstep in Hrun. simpl in Hrun.
    apply (IH st1 st'); [done| |done]. by apply (parse_line_tidy st line).
Qed.

(** X9: [parse_nodes] stores tidy strings only. In its result every node
    id begins with [!], and no node id, field name or field value is empty
    or has whitespace at either end. *)
Theorem parse_nodes_stores_tidy_strings (output : string) :
  ∃ nodes, parse_nodes output = Ok nodes ∧ all_tidy nodes.
Proof.
  unfold parse_nodes.
  destruct (parse_lines_wf (split "010" output) _ wf_init) as (st & Hrun & _).
  rewrite Hrun. exists (nodes st). split; [done|].
  apply (parse_lines_tidy _ _ _ wf_init) in Hrun; [done|].
  intros id fields. simpl. by rewrite lookup_empty.
Qed.

Lemma parse_lines_app st l1 l2 :
  parse_lines st (l1 ++ l2) = st' ← parse_lines st l1; parse_lines st' l2.
Proof.
  revert st. induction l1 as [|l l1 IH]; intros st; simpl; [done|].
  destruct (parse_line st l) as [st1|e]; simpl; [apply IH|done].
Qed.

Lemma no_data_field_nil k : no_data_field [] k.
Proof. intros line v Hin. by apply elem_of_nil in Hin. Qed.

Lemma no_data_field_cons line block k :
  no_data_field (line :: block) k
  ↔ (∀ v, ¬ field line k v) ∧ no_data_field block k.
Proof.
  unfold no_data_field. split.
  - intros H. split; [intros v; apply H; left|].
    intros l v Hin. apply H. by right.
  - intros [H1 H2] l v [->|Hin]%elem_of_cons; [apply H1 | by apply H2].
Qed.

Lemma last_data_field_nil k v : ¬ last_data_field [] k v.
Proof. intros ([|??] & ? & ? & [=] & _). Qed.

Lemma last_data_field_cons line block k v :
  last_data_field (line :: block) k v
  ↔ last_data_field block k v ∨ (field line k v ∧ no_data_field block k).
Proof.
  split.
  - intros ([|l b1] & l' & b2 & Heq & Hf & Hno); simplify_eq/=; [by right|].
    left. by exists b1, l', b2.
  - intros [(b1 & l' & b2 & -> & Hf & Hno)|[Hf Hno]].
    + by exists (line :: b1), l', b2.
    + by exists [], line, block.
Qed.

(** A data line carries one field at most. *)
Lemma field_functional line k v k' v' :
  field line k v → field line k' v' → k = k' ∧ v = v'.
Proof.
  intros (_ & k0 & v0 & Hs & Hk0 & _ & _ & -> & ->)
         (_ & k1 & v1 & Hs1 & Hk1 & _ & _ & -> & ->).
  rewrite Hs in Hs1. apply (f_equal (split1 ":")) in Hs1.
  rewrite (split1_cut _ _ _ Hk0), (split1_cut _ _ _ Hk1) in Hs1.
  by injection Hs1 as -> ->.
Qed.

(** The loop inside the block of the current node. *)
Lemma parse_lines_block id block : ∀ st m0,
  id ≠ "" → current_node st = Some id → nodes st !! id = Some m0 →
  (∀ line, line ∈ block → ¬ header line) →
  ∃ st' m, parse_lines st block = Ok st' ∧
    current_node st' = Some id ∧ nodes st' !! id = Some m ∧
    (∀ id', id' ≠ id → nodes st' !! id' = nodes st !! id') ∧
    ∀ k v, m !! k = Some v
      ↔ last_data_field block k v ∨ (no_data_field block k ∧ m0 !! k = Some v).
Proof.
  induction block as [|line block IH]; intros st m0 Hid Hcur Hm0 Hblock.
  - exists st, m0. split_and!; try done. intros k v. split.
    + intros H. right. split; [apply no_data_field_nil|done].
    + by intros [?%last_data_field_nil|[_ ?]].
  - assert (∀ l, l ∈ block → ¬ header l) as Hblock'.
    { intros l Hin. apply Hblock. by right. }
    assert (¬ header line) as Hnh by (apply Hblock; left).
    simpl. destruct (field_dec line) as [(k0 & v0 & Hf)|Hnf].
    + rewrite (parse_line_field _ _ _ _ _ _ Hf Hid Hcur Hm0). simpl.
      destruct (IH (ParseState (<[id := <[k0 := v0]> m0]> (nodes st)) (Some id))
                   (<[k0 := v0]> m0)) as (st' & m & Hrun & Hcur' & Hm & Hother & Hspec);
        [done|done|apply lookup_insert_eq|done|].
      exists st', m. split_and!; try done.
      { intros id' Hne. rewrite Hother by done. simpl.
        by apply lookup_insert_ne. }
      intros k v. rewrite Hspec, last_data_field_cons, no_data_field_cons.
      destruct (decide (k = k0)) as [->|Hk].
      * rewrite lookup_insert_eq. split.
        -- intros [?|[Hno [= <-]]]; [by left; left|]. left. by right.
        -- intros [[?|[Hf' Hno]]|[[Hnone _] _]]; [by left| |by apply Hnone in Hf].
           right. split; [done|].
           by destruct (field_functional _ _ _ _ _ Hf Hf') as [_ ->].
      * rewrite lookup_insert_ne by done.
        assert (∀ v', ¬ field line k v') as Hnone.
        { intros v' Hf'. by destruct (field_functional _ _ _ _ _ Hf Hf'). }
        split; [intros [?|[? ?]]; [by left; left|by right]|].
        intros [[?|[Hf' _]]|[[_ ?] ?]]; [by left|by apply Hnone in Hf'|by right].
    + rewrite (parse_line_ignored _ _ Hnh Hnf). simpl.
      destruct (IH st m0) as (st' & m & Hrun & Hcur' & Hm & Hother & Hspec);
        [done..|].
      exists st', m. split_and!; try done.
      intros k v. rewrite Hspec, last_data_field_cons, no_data_field_cons.
      split; [intros [?|[? ?]]; [by left; left|by right]|].
      intros [[?|[Hf' _]]|[[_ ?] ?]]; [by left|by apply Hnf in Hf'|by right].
Qed.

(** Lines after the block of a node, none of them a header of that node,
    leave its fields alone. *)
Lemma parse_lines_other id lines : ∀ st,
  wf st → current_node st ≠ Some id →
  (∀ line, line ∈ lines → header line → strip line ≠ id) →
  ∃ st', parse_lines st lines = Ok st' ∧ nodes st' !! id = nodes st !! id.
Proof.
  induction lines as [|line rest IH]; intros st Hwf Hcur Hlines; [by exists st|].
  assert (∀ l, l ∈ rest → header l → strip l ≠ id) as Hrest.
  { intros l Hin. apply Hlines. by right. }
  simpl. destruct (parse_line_wf st line Hwf) as (st1 & Hstep & Hwf1 & _).
  rewrite Hstep. simpl.
  assert (current_node st1 ≠ Some id ∧ nodes st1 !! id = nodes st !! id) as [Hcur1 Hid].
  { destruct (field_dec line) as [(k & v & Hf)|Hnf].
    - destruct (current_node st) as [c|] eqn:Hc.
      + destruct (Hwf c Hc) as [Hc' [f Hf']].
        rewrite (parse_line_field _ _ _ _ _ _ Hf Hc' Hc Hf') in Hstep.
        injection Hstep as <-. simpl. split; [done|].
        apply lookup_insert_ne. congruence.
      + rewrite (parse_line_dropped _ _ _ _ Hf Hc) in Hstep.
        injection Hstep as <-. by rewrite Hc.
    - destruct (is_header line) eqn:Hh.
      + apply is_header_spec in Hh. rewrite (parse_line_header _ _ Hh) in Hstep.
        injection Hstep as <-. simpl.
        assert (strip line ≠ id) as Hne by (apply Hlines; [left|done]).
        split; [congruence|]. by apply lookup_insert_ne.
      + assert (¬ header line) as Hnh.
        { rewrite <- is_header_spec. by rewrite Hh. }
        rewrite (parse_line_ignored _ _ Hnh Hnf) in Hstep. by injection Hstep as <-. }
  destruct (IH st1 Hwf1 Hcur1 Hrest) as (st' & Hrun & Hsame).
  exists st'. split; [done|]. by rewrite Hsame.
Qed.

Lemma parse_nodes_last_block (output h : string) (pre block rest : list string) :
  split "010" output = pre ++ h :: block ++ rest →
  header h →
  (∀ line, line ∈ block → ¬ header line) →
  (rest = [] ∨ ∃ l rest', rest = l :: rest' ∧ header l) →
  (∀ line, line ∈ rest → header line → strip line ≠ strip h) →
  ∃ nodes fields,
    parse_nodes output = Ok nodes ∧ nodes !! strip h = Some fields ∧
    ∀ k v, fields !! k = Some v ↔ last_data_field block k v.
Proof.
  intros Hsplit Hh Hblock Hnext Hrest. unfold parse_nodes.
  rewrite Hsplit, parse_lines_app.
  destruct (parse_lines_wf pre _ wf_init) as (st0 & -> & Hwf0 & _). simpl.
  rewrite (parse_line_header _ _ Hh). simpl. rewrite parse_lines_app.
  destruct (header_tidy _ Hh) as [_ [Hid _]].
  destruct (parse_lines_block (strip h) block
              (ParseState (<[strip h := ∅]> (nodes st0)) (Some (strip h))) ∅)
    as (st1 & m & -> & Hcur1 & Hm & _ & Hspec);
    [done|done|apply lookup_insert_eq|done|].
  simpl.
  assert (wf st1) as Hwf1.
  { intros c Hc. rewrite Hcur1 in Hc. injection Hc as <-. split; [done|by eexists]. }
  assert (∃ st2, parse_lines st1 rest = Ok st2 ∧ nodes st2 !! strip h = Some m)
    as (st2 & -> & Hm2).
  { destruct Hnext as [->|(l & rest' & -> & Hl)]; [by exists st1|].
    simpl. rewrite (parse_line_header _ _ Hl). simpl.
    assert (strip l ≠ strip h) as Hne by (apply Hrest; [left|done]).
    destruct (parse_lines_other (strip h) rest'
                (ParseState (<[strip l := ∅]> (nodes st1)) (Some (strip l))))
      as (st2 & Hrun & Hsame).
    - intros c [= <-]. simpl. destruct (header_tidy _ Hl) as [_ [? _]].
      split; [done|]. rewrite lookup_insert_eq. by eexists.
    - simpl. congruence.
    - intros line Hin. apply Hrest. by right.
    - exists st2. split; [done|]. rewrite Hsame. simpl.
      by rewrite lookup_insert_ne. }
  simpl. exists (nodes st2), m. split; [done|]. split; [done|].
  intros k v. rewrite Hspec, lookup_empty.
  split; [by intros [?|[_ [=]]] | by left].
Qed.

(** X10: of a node id that is announced more than once, [parse_nodes]
    keeps the last block only. When [h] is the last header of its id, the
    fields of that id are exactly the fields of the data lines between [h]
    and the next header (or the end of the text), the last data line of a
    key giving its value; what earlier blocks of the same id held is
    gone. *)
Theorem parse_nodes_keeps_last_block (output h : string)
    (pre block rest : list string) :
  split "010" output = pre ++ h :: block ++ rest →
  header h →
  (∀ line, line ∈ block → ¬ header line) →
  (rest = [] ∨ ∃ l rest', rest = l :: rest' ∧ header l) →
  (∀ line, line ∈ rest → header line → strip line ≠ strip h) →
  ∃ nodes fields,
    parse_nodes output = Ok nodes ∧ nodes !! strip h = Some fields ∧
    ∀ k v, fields !! k = Some v ↔ last_data_field block k v.
Proof. apply parse_nodes_last_block. Qed.

Lemma parse_nodes_keeps_last_block_witness :
  ∃ nodes fields,
    parse_nodes (text_of ["!a"; "  x: 1"; "!a"; "  y: 2"]) = Ok nodes ∧
    nodes !! "!a" = Some fields ∧
    fields !! "y" = Some "2" ∧ fields !! "x" = None.
Proof.
  assert (field "  y: 2" "y" "2") as Hy.
  { split; [by exists "y: 2"|]. exists "y", " 2".
    split_and!; try done. by apply contains_char_false. }
  destruct (parse_nodes_keeps_last_block
              (text_of ["!a"; "  x: 1"; "!a"; "  y: 2"]) "!a"
              ["!a"; "  x: 1"] ["  y: 2"] [])
    as (nodes & fields & Hp & Hn & Hspec).
  - reflexivity.
  - by apply is_header_spec.
  - intros line ->%list_elem_of_singleton [Hind _]. apply Hind. by exists "y: 2".
  - by left.
  - intros line Hin. by apply elem_of_nil in Hin.
  - exists nodes, fields. split; [exact Hp|]. split; [exact Hn|]. split.
    + apply Hspec. exists [], "  y: 2", []. split; [done|]. split; [done|].
      apply no_data_field_nil.
    + destruct (fields !! "x") as [v|] eqn:Hx; [|done].
      apply Hspec in Hx as (b1 & l & b2 & Heq & Hf & _).
      destruct b1 as [|? [|??]]; simplify_eq/=.
      by destruct (field_functional _ _ _ _ _ Hy Hf).
Defined.

End parse_nodes_more.

(** ** [MessageLogger] *)

Section message_logger_facts.
Import MessageLogger.
Implicit Types (out : sink) (line part sep s : string).

Lemma split_go_cons sep skip s : ∃ w ws, split_go sep skip s = w :: ws.
Proof.
  revert skip. induction s as [|c s IH]; intros skip; simpl; [by eexists _, _|].
  destruct skip as [|k]; [|apply IH].
  destruct (startswith sep (String c s)); [by eexists _, _|].
  destruct (IH 0%nat) as (w & ws & ->). by eexists _, _.
Qed.

Lemma contains_cons p c s :
  contains p (String c s) = startswith p (String c s) || contains p s.
Proof. reflexivity. Qed.

(** A separator that occurs cuts the string into two pieces at least, so
    the index 1 is in range. *)
Lemma split_str_second sep s :
  sep ≠ "" → contains sep s = true → ∃ x, split_str sep s !! 1%nat = Some x.
Proof.
  intros Hsep. unfold split_str. induction s as [|c s IH].
  - by destruct sep.
  - rewrite contains_cons. simpl.
    destruct (startswith sep (String c s)) eqn:Hst; simpl.
    + intros _.
      destruct (split_go_cons sep (String.length sep - 1) s) as (w & ws & ->).
      by exists w.
    + intros Hc. destruct (IH Hc) as [x Hx].
      destruct (split_go sep 0 s) as [|w [|x' ws]]; simplify_eq/=. by exists x.
Qed.

Lemma scan_parts_total parts : ∀ f t m, ∃ r, scan_parts parts f t m = Some r.
Proof.
  induction parts as [|part rest IH]; intros f t m; simpl; [by eexists|].
  destruct (contains "From:" part) eqn:Hf.
  { destruct (split_str_second "From:" part) as [x ->]; [done..|]. apply IH. }
  destruct (contains "To:" part) eqn:Ht.
  { destruct (split_str_second "To:" part) as [x ->]; [done..|]. apply IH. }
  destruct (contains "Text:" part) eqn:Hx.
  { destruct (split_str_second "Text:" part) as [x ->]; [done..|]. apply IH. }
  apply IH.
Qed.

(** What [listen] does with a line: it writes its entry to the file,
    with a newline, and prints it. *)
Lemma handle_line_entry out line timestamp :
  handle_line out line timestamp
  = Some (Sink (append_to (logfile out) (entry_text line timestamp +:+ newline))
               (console out ++ [entry_text line timestamp])).
Proof.
  unfold handle_line, entry_text.
  destruct (contains "From:" line && _); [|done].
  destruct (scan_parts_total (split "," line) "Unknown" "Unknown" line)
    as [[[f t] m] ->].
  done.
Qed.

(** X11: no line makes the loop of [listen] raise: wherever a marker
    [From:], [To:] or [Text:] is found in a part, the part splits at it in
    two pieces at least, so the index 1 is in range. *)
Theorem read_lines_never_raises out (lines : list (string * string)) :
  ∃ out', read_lines out lines = Some out'.
Proof.
  revert out. induction lines as [|[raw timestamp] rest IH]; intros out; simpl;
    [by eexists|].
  destruct (truthy raw); [|by eexists].
  destruct (truthy (strip raw)); [|apply IH].
  rewrite handle_line_entry. apply IH.
Qed.

Lemma append_to_app file t1 t2 :
  append_to (append_to file t1) t2 = append_to file (t1 +:+ t2).
Proof. unfold append_to. simpl. by rewrite append_assoc. Qed.

Lemma logged_cons raw timestamp rest :
  raw ≠ "" →
  logged ((raw, timestamp) :: rest)
  = if decide (strip raw ≠ "") then (raw, timestamp) :: logged rest
    else logged rest.
Proof.
  intros Hraw. unfold logged. simpl.
  apply truthy_spec in Hraw as ->. by rewrite filter_cons.
Qed.

Lemma read_lines_entries (lines : list (string * string)) : ∀ out,
  let entries := (λ l, entry_text (strip l.1) l.2) <$> logged lines in
  read_lines out lines
  = Some (Sink (if entries is [] then logfile out
                else append_to (logfile out) (file_text entries))
               (console out ++ entries)).
Proof.
  induction lines as [|[raw timestamp] rest IH]; intros out.
  { simpl. by rewrite app_nil_r; destruct out. }
  simpl. destruct (truthy raw) eqn:Hraw; cycle 1.
  { unfold logged. simpl. rewrite Hraw. simpl.
    by rewrite app_nil_r; destruct out. }
  apply truthy_spec in Hraw. rewrite (logged_cons _ _ _ Hraw).
  destruct (truthy (strip raw)) eqn:Hline.
  - apply truthy_spec in Hline. rewrite decide_True by done.
    rewrite handle_line_entry. simpl. rewrite IH. simpl.
    rewrite <- app_assoc. simpl. f_equal. f_equal.
    destruct (logged rest) as [|l ls]; simpl;
      [by rewrite append_nil_r | by rewrite append_to_app, append_assoc].
  - rewrite decide_False; [apply IH|].
    intros Hne. apply truthy_spec in Hne. congruence.
Qed.

(** X12: a logger never truncates its file, and the file and the console
    receive the same entries in the same order. After [ensure_logfile] and
    the loop of [listen], the file holds what it held before (or the
    three-line header, if it did not exist), followed by one entry and a
    newline for each line that was read before the end of input and is
    not blank; the console has the same entries added. *)
Theorem logger_appends_one_entry_per_line started out
    (lines : list (string * string)) :
  let entries := (λ l, entry_text (strip l.1) l.2) <$> logged lines in
  ∃ out',
    read_lines (ensure_logfile started out) lines = Some out' ∧
    console out' = console out ++ entries ∧
    logfile out'
    = Some (default (file_header started) (logfile out) +:+ file_text entries).
Proof.
  intros entries. rewrite read_lines_entries. fold entries.
  eexists. split; [done|]. simpl. unfold ensure_logfile.
  destruct (logfile out) as [text|] eqn:Hfile; simpl; rewrite ?Hfile;
    (split; [done|]); by destruct entries; simpl; rewrite ?append_nil_r.
Qed.

Lemma split_eq c x s :
  split c (String x s)
  = if Ascii.eqb x c then "" :: split c s
    else match split c s with
         | w :: ws => String x w :: ws
         | [] => [String x ""]
         end.
Proof. reflexivity. Qed.

Lemma split_none c s : ¬ occurs c s → split c s = [s].
Proof.
  induction s as [|x s IH]; [done|]. intros H. rewrite split_eq.
  destruct (Ascii.eqb_spec x c) as [->|Hne].
  - exfalso. apply H, occurs_cons. by left.
  - rewrite IH; [done|]. intros ?. apply H, occurs_cons. by right.
Qed.

Lemma split_at c a b : ¬ occurs c a → split c (a +:+ String c b) = a :: split c b.
Proof.
  induction a as [|x a IH]; intros H.
  - rewrite append_nil_l, split_eq. by rewrite Ascii.eqb_refl.
  - rewrite append_cons, split_eq. destruct (Ascii.eqb_spec x c) as [->|Hne].
    + exfalso. apply H, occurs_cons. by left.
    + rewrite IH; [done|]. intros ?. apply H, occurs_cons. by right.
Qed.

Lemma occurs_app c a b : occurs c (a +:+ b) ↔ occurs c a ∨ occurs c b.
Proof.
  induction a as [|x a IH].
  - rewrite append_nil_l. split; [by right|]. by intros [?%occurs_nil|?].
  - rewrite append_cons, !occurs_cons, IH. tauto.
Qed.

Lemma startswith_app p s b : startswith p s = true → startswith p (s +:+ b) = true.
Proof.
  rewrite !startswith_spec. intros [r ->]. exists (r +:+ b).
  by rewrite append_assoc.
Qed.

Lemma contains_true p s : contains p s = true ↔ ∃ a b, s = a +:+ p +:+ b.
Proof.
  induction s as [|x s IH].
  - change (contains p "") with (startswith p "" || false).
    rewrite orb_false_r, startswith_spec. split.
    + intros [r Hr]. by exists "", r.
    + intros ([|??] & b & Hb); [by exists b|done].
  - rewrite contains_cons, orb_true_iff, IH, startswith_spec. split.
    + intros [[r Hr]|(a & b & ->)]; [by exists "", r|by exists (String x a), b].
    + intros ([|y a] & b & Hab).
      * left. by exists b.
      * rewrite append_cons in Hab. injection Hab as -> ->. right. by exists a, b.
Qed.

Lemma split_head c s w ws : split c s = w :: ws → ∃ b, s = w +:+ b.
Proof.
  revert w ws. induction s as [|x s IH]; intros w ws.
  - intros [= <- <-]. by exists "".
  - rewrite split_eq. destruct (Ascii.eqb x c).
    + intros [= <- <-]. by exists (String x s).
    + destruct (split_cons c s) as (w' & ws' & Hsp). rewrite Hsp.
      intros [= <- <-]. destruct (IH w' ws' Hsp) as [b ->].
      by exists b.
Qed.

(** A part of [s.split(c)] is a piece of [s]. *)
Lemma split_part c s part :
  part ∈ split c s → ∃ a b, s = a +:+ part +:+ b.
Proof.
  revert part. induction s as [|x s IH]; intros part.
  - intros ->%list_elem_of_singleton. by exists "", "".
  - rewrite split_eq. destruct (Ascii.eqb x c).
    + intros [->|Hin]%elem_of_cons; [by exists "", (String x s)|].
      destruct (IH part Hin) as (a & b & ->). by exists (String x a), b.
    + destruct (split_cons c s) as (w & ws & Hsp). rewrite Hsp.
      intros [->|Hin]%elem_of_cons.
      * destruct (split_head _ _ _ _ Hsp) as [b ->]. by exists "", b.
      * destruct (IH part) as (a & b & ->); [rewrite Hsp; by right|].
        by exists (String x a), b.
Qed.

Lemma contains_part c p s part :
  part ∈ split c s → contains p s = false → contains p part = false.
Proof.
  intros Hin Hs. destruct (contains p part) eqn:Hp; [|done].
  apply contains_true in Hp as (a & b & ->).
  apply split_part in Hin as (a' & b' & ->).
  assert (contains p (a' +:+ (a +:+ p +:+ b) +:+ b') = true) as Hc; [|congruence].
  apply contains_true. exists (a' +:+ a), (b +:+ b').
  by rewrite !append_assoc.
Qed.

Lemma split_go_eq sep c s :
  split_go sep 0 (String c s)
  = if startswith sep (String c s)
    then "" :: split_go sep (String.length sep - 1) s
    else match split_go sep 0 s with
         | w :: ws => String c w :: ws
         | [] => [String c ""]
         end.
Proof. reflexivity. Qed.

Lemma split_str_none sep s : contains sep s = false → split_str sep s = [s].
Proof.
  unfold split_str. induction s as [|c s IH]; [done|].
  rewrite contains_cons, split_go_eq.
  intros [-> Hs]%orb_false_iff. by rewrite IH.
Qed.

Lemma contains_skip p c s :
  startswith p (String c s) = false → contains p (String c s) = contains p s.
Proof. intros H. by rewrite contains_cons, H. Qed.

(** Parts without a marker leave the three fields as they are. *)
Lemma scan_parts_plain parts f t m :
  (∀ part, part ∈ parts →
     contains "From:" part = false ∧ contains "To:" part = false ∧
     contains "Text:" part = false) →
  scan_parts parts f t m = Some (f, t, m).
Proof.
  induction parts as [|part rest IH]; intros Hparts; [done|]. simpl.
  destruct (Hparts part) as (-> & -> & ->); [left|].
  apply IH. intros p Hin. apply Hparts. by right.
Qed.

Lemma scan_parts_from part x rest f t m :
  contains "From:" part = true → split_str "From:" part !! 1%nat = Some x →
  scan_parts (part :: rest) f t m = scan_parts rest (strip x) t m.
Proof. intros H1 H2. simpl. by rewrite H1, H2. Qed.

Lemma scan_parts_to part x rest f t m :
  contains "From:" part = false → contains "To:" part = true →
  split_str "To:" part !! 1%nat = Some x →
  scan_parts (part :: rest) f t m = scan_parts rest f (strip x) m.
Proof. intros H0 H1 H2. simpl. by rewrite H0, H1, H2. Qed.

Lemma scan_parts_text part x rest f t m :
  contains "From:" part = false → contains "To:" part = false →
  contains "Text:" part = true → split_str "Text:" part !! 1%nat = Some x →
  scan_parts (part :: rest) f t m = scan_parts rest f t (strip x).
Proof. intros H0 H1 H2 H3. simpl. by rewrite H0, H1, H2, H3. Qed.

Local Ltac skip_chars :=
  repeat (rewrite contains_skip by reflexivity).

Lemma marker_free_comma : ¬ occurs "," "From:" ∧ ¬ occurs "," " To:" ∧ ¬ occurs "," " Text:".
Proof. split_and!; by apply contains_char_false. Qed.

(** X13: a line in the format of the tool is read back, up to the first
    comma of its text. For [From:f, To:t, Text:m] where [f], [t] and [m]
    have no comma and do not repeat the markers that would be taken for
    theirs, the entry logged has the trimmed [f], [t] and [m] as sender,
    receiver and text; and if a comma and more text follow (with no
    marker in it), that text is left out of the entry. *)
Theorem formatted_message_is_read_back (f t m tail : string) out timestamp :
  ¬ occurs "," f → ¬ occurs "," t → ¬ occurs "," m →
  contains "From:" f = false →
  contains "From:" t = false → contains "To:" t = false →
  contains "From:" m = false → contains "To:" m = false →
  contains "Text:" m = false →
  (tail = "" ∨
   ∃ more, tail = "," +:+ more ∧ contains "From:" more = false ∧
           contains "To:" more = false ∧ contains "Text:" more = false) →
  handle_line out
    (("From:" +:+ f) +:+ "," +:+ (" To:" +:+ t) +:+ "," +:+ (" Text:" +:+ m) +:+ tail)
    timestamp
  = Some (log_message out timestamp (strip f) (strip t) (strip m) "").
Proof.
  intros Hf Ht Hm Hff Htf Htt Hmf Hmt Hmx Htail.
  destruct marker_free_comma as (Hc1 & Hc2 & Hc3).
  set (a := "From:" +:+ f). set (b := " To:" +:+ t). set (c := " Text:" +:+ m).
  assert (¬ occurs "," a) as Ha by (unfold a; rewrite occurs_app; tauto).
  assert (¬ occurs "," b) as Hb by (unfold b; rewrite occurs_app; tauto).
  assert (¬ occurs "," c) as Hc by (unfold c; rewrite occurs_app; tauto).
  assert (∃ parts, split "," (c +:+ tail) = c :: parts ∧
            ∀ part, part ∈ parts →
              contains "From:" part = false ∧ contains "To:" part = false ∧
              contains "Text:" part = false) as (parts & Hsplit & Hparts).
  { destruct Htail as [->|(more & -> & H1 & H2 & H3)].
    - exists []. rewrite append_nil_r, (split_none _ _ Hc).
      split; [done|]. intros part Hin. by apply elem_of_nil in Hin.
    - exists (split "," more). split; [by apply (split_at "," c more)|].
      intros part Hin. split_and!; by eapply contains_part. }
  unfold handle_line.
  assert (contains "From:" (a +:+ "," +:+ b +:+ "," +:+ c +:+ tail) = true) as ->.
  { apply contains_true. exists "", (f +:+ "," +:+ b +:+ "," +:+ c +:+ tail).
    unfold a. by rewrite append_nil_l, !append_assoc. }
  assert (contains "Text:" (a +:+ "," +:+ b +:+ "," +:+ c +:+ tail) = true) as ->.
  { apply contains_true. exists (a +:+ "," +:+ b +:+ ", "), (m +:+ tail).
    unfold c. by rewrite !append_assoc. }
  simpl. rewrite !(append_cons "," ""), !append_nil_l.
  rewrite (split_at "," a _ Ha).
  rewrite (split_at "," b (c +:+ tail) Hb), Hsplit.
  assert (contains "From:" a = true) as Ha1 by reflexivity.
  assert (split_str "From:" a = "" :: split_str "From:" f) as Ha2 by reflexivity.
  assert (contains "From:" b = false) as Hb1.
  { unfold b. rewrite !append_cons, append_nil_l. by skip_chars. }
  assert (contains "To:" b = true) as Hb2 by reflexivity.
  assert (split_str "To:" b = " " :: split_str "To:" t) as Hb3 by reflexivity.
  assert (contains "From:" c = false) as Hc4.
  { unfold c. rewrite !append_cons, append_nil_l. by skip_chars. }
  assert (contains "To:" c = false) as Hc5.
  { unfold c. rewrite !append_cons, append_nil_l. by skip_chars. }
  assert (contains "Text:" c = true) as Hc6 by reflexivity.
  assert (split_str "Text:" c = " " :: split_str "Text:" m) as Hc7 by reflexivity.
  rewrite (scan_parts_from a f)
    by (done || by rewrite Ha2, (split_str_none _ _ Hff)).
  rewrite (scan_parts_to b t)
    by (done || by rewrite Hb3, (split_str_none _ _ Htt)).
  rewrite (scan_parts_text c m)
    by (done || by rewrite Hc7, (split_str_none _ _ Hmx)).
  by rewrite (scan_parts_plain _ _ _ _ Hparts).
Qed.

Lemma formatted_message_witness :
  handle_line (Sink None []) "From: !6984a7c8, To: ^all, Text: Hello, mesh!"
    "2026-01-01 00:00:00"
  = Some (log_message (Sink None []) "2026-01-01 00:00:00"
            "!6984a7c8" "^all" "Hello" "").
Proof.
  apply (formatted_message_is_read_back " !6984a7c8" " ^all" " Hello" ", mesh!");
    try (by apply contains_char_false); try reflexivity.
  right. by exists " mesh!".
Defined.
(** X14: a message line without commas is logged whole. When [From:] and
    [Text:] stand in a line that has no comma, the only part is the line
    itself and the marker [From:] is looked for first: the sender is what
    follows the first [From:] (up to the next one), the receiver is
    [Unknown], and the text of the entry is the whole line. *)
Theorem message_without_commas_is_logged_whole (line : string) out timestamp :
  ¬ occurs "," line →
  contains "From:" line = true → contains "Text:" line = true →
  ∃ x, split_str "From:" line !! 1%nat = Some x ∧
    handle_line out line timestamp
    = Some (log_message out timestamp (strip x) "Unknown" line "").
Proof.
  intros Hcomma Hfrom Htext.
  destruct (split_str_second "From:" line) as [x Hx]; [done..|].
  exists x. split; [done|]. unfold handle_line.
  rewrite Hfrom, Htext, (split_none _ _ Hcomma).
  change (true && (true || contains "telemetry" (str_lower line))) with true.
  cbv iota. by rewrite (scan_parts_from line x) by done.
Qed.

Lemma message_without_commas_witness :
  handle_line (Sink None []) "From: !a To: !b Text: hi" "12:00"
  = Some (log_message (Sink None []) "12:00" "!a To: !b Text: hi" "Unknown"
            "From: !a To: !b Text: hi" "").
Proof.
  destruct (message_without_commas_is_logged_whole "From: !a To: !b Text: hi"
              (Sink None []) "12:00") as (x & Hx & ->);
    [by apply contains_char_false|reflexivity..|].
  vm_compute in Hx. by injection Hx as <-.
Defined.

Lemma occurs_lstrip_any c s : occurs c (lstrip s) → occurs c s.
Proof.
  induction s as [|x s IH]; [done|]. simpl. destruct (isspace x); [|done].
  intros H. apply occurs_cons. right. by apply IH.
Qed.

Lemma occurs_rstrip_any c s : occurs c (rstrip s) → occurs c s.
Proof.
  induction s as [|x s IH]; [done|]. rewrite rstrip_cons, occurs_cons.
  destruct (rstrip s) as [|y r].
  - destruct (isspace x); [by intros ?%occurs_nil|].
    intros [?|?%occurs_nil]%occurs_cons; [by left|done].
  - intros [?|H]%occurs_cons; [by left|]. right. by apply IH.
Qed.

Lemma occurs_strip_any c s : occurs c (strip s) → occurs c s.
Proof. intros H. by apply occurs_rstrip_any, occurs_lstrip_any. Qed.

Lemma rstrip_newline s : rstrip (s +:+ newline) = rstrip s.
Proof.
  induction s as [|x s IH]; [done|].
  by rewrite append_cons, !rstrip_cons, IH.
Qed.

(** A piece of [s.split(sep)] is a piece of [s]. *)
Lemma split_go_piece c sep s : ∀ skip x,
  x ∈ split_go sep skip s → occurs c x → occurs c s.
Proof.
  induction s as [|y s IH]; intros skip x.
  - simpl. by intros ->%list_elem_of_singleton.
  - destruct skip as [|k]; simpl.
    + destruct (startswith sep (String y s)).
      * intros [->|Hin]%elem_of_cons Hx; [by apply occurs_nil in Hx|].
        apply occurs_cons. right. by apply (IH (String.length sep - 1)%nat x).
      * destruct (split_go_cons sep 0 s) as (w & ws & Hsp). rewrite Hsp.
        intros [->|Hin]%elem_of_cons Hx.
        -- apply occurs_cons in Hx as [?|Hx]; apply occurs_cons; [by left|].
           right. apply (IH 0%nat w); [rewrite Hsp; left|done].
        -- apply occurs_cons. right. apply (IH 0%nat x); [rewrite Hsp; by right|done].
    + intros Hin Hx. apply occurs_cons. right. by apply (IH k x).
Qed.

Lemma split_str_second_piece c sep part x :
  split_str sep part !! 1%nat = Some x → occurs c (strip x) → occurs c part.
Proof.
  intros Hx Hc. apply (split_go_piece c sep part 0%nat x).
  - by eapply list_elem_of_lookup_2.
  - by apply occurs_strip_any.
Qed.

Lemma scan_parts_free c parts : ∀ f t m f' t' m',
  (∀ part, part ∈ parts → ¬ occurs c part) →
  ¬ occurs c f → ¬ occurs c t → ¬ occurs c m →
  scan_parts parts f t m = Some (f', t', m') →
  ¬ occurs c f' ∧ ¬ occurs c t' ∧ ¬ occurs c m'.
Proof.
  induction parts as [|part rest IH]; intros f t m f' t' m' Hparts Hf Ht Hm.
  { by intros [= <- <- <-]. }
  assert (¬ occurs c part) as Hpart by (apply Hparts; left).
  assert (∀ p, p ∈ rest → ¬ occurs c p) as Hrest.
  { intros p Hin. apply Hparts. by right. }
  simpl.
  destruct (contains "From:" part).
  { destruct (split_str "From:" part !! 1%nat) as [x|] eqn:Hx; [|done]. simpl.
    apply IH; try done. intros H.
    by apply Hpart, (split_str_second_piece c "From:" part x). }
  destruct (contains "To:" part).
  { destruct (split_str "To:" part !! 1%nat) as [x|] eqn:Hx; [|done]. simpl.
    apply IH; try done. intros H.
    by apply Hpart, (split_str_second_piece c "To:" part x). }
  destruct (contains "Text:" part).
  { destruct (split_str "Text:" part !! 1%nat) as [x|] eqn:Hx; [|done]. simpl.
    apply IH; try done. intros H.
    by apply Hpart, (split_str_second_piece c "Text:" part x). }
  by apply IH.
Qed.

(** X15: every entry is one line of the log. For a line as [readline]
    returns it (a text without newline, then the newline) and a time stamp
    without newline, the entry that is logged has no newline in it,
    whatever sender, receiver and text are read from the line. *)
Theorem logged_entry_is_a_single_line (body timestamp : string) :
  ¬ occurs "010" body → ¬ occurs "010" timestamp →
  ¬ occurs "010" (entry_text (strip (body +:+ newline)) timestamp).
Proof.
  intros Hbody Hts.
  assert (¬ occurs "010" (strip (body +:+ newline))) as Hline.
  { unfold strip. rewrite rstrip_newline. intros H. by apply Hbody, occurs_strip_any. }
  set (line := strip (body +:+ newline)) in *.
  assert (∀ lit : string, contains (String "010" "") lit = false → ¬ occurs "010" lit)
    as Hlit by (intros; by apply contains_char_false).
  unfold entry_text. destruct (contains "From:" line && _).
  - destruct (scan_parts (split "," line) "Unknown" "Unknown" line)
      as [[[f t] m]|] eqn:Hscan; [|apply occurs_nil].
    apply (scan_parts_free "010") in Hscan as (Hf & Ht & Hm); try done.
    + unfold log_entry. simpl. rewrite !occurs_app.
      intros [H|[H|[H|[H|[H|[H|[H|H]]]]]]]; try done;
        by apply Hlit in H.
    + intros part Hin Hocc. apply split_part in Hin as (a & b & Hab).
      apply Hline. rewrite Hab, !occurs_app. tauto.
    + by apply Hlit.
    + by apply Hlit.
  - rewrite !occurs_app. intros [H|[H|[H|H]]]; try done; by apply Hlit in H.
Qed.

Lemma logged_entry_witness :
  ¬ occurs "010"
    (entry_text (strip ("From: !6984a7c8, To: ^all, Text: Hello mesh!" +:+ newline))
       "2026-01-01 00:00:00").
Proof.
  apply logged_entry_is_a_single_line; by apply contains_char_false.
Defined.
End message_logger_facts.

(** ** The two parsers on the same text *)

Section parsers_agree.
Import Lines.
Implicit Types (line k v id : string).

Lemma rstrip_app c a b :
  isspace c = false → rstrip (a +:+ String c b) = a +:+ String c (rstrip b).
Proof.
  intros Hc. induction a as [|x a IH].
  - rewrite !append_nil_l, rstrip_cons. destruct (rstrip b); by rewrite ?Hc.
  - rewrite !append_cons, rstrip_cons, IH.
    by destruct a; rewrite ?append_nil_l, ?append_cons.
Qed.

Lemma lstrip_app c a b :
  isspace c = false → lstrip (a +:+ String c b) = lstrip a +:+ String c b.
Proof.
  intros Hc. induction a as [|x a IH].
  - rewrite !append_nil_l. simpl. by rewrite Hc.
  - rewrite append_cons. simpl. destruct (isspace x); [done|].
    by rewrite append_cons.
Qed.

Lemma strip_cut k1 v1 :
  strip (k1 +:+ String ":" v1) = lstrip k1 +:+ String ":" (rstrip v1).
Proof. unfold strip. by rewrite rstrip_app, lstrip_app. Qed.

Lemma strip_lstrip s : strip (lstrip s) = strip s.
Proof. unfold strip. by rewrite strip_comm, lstrip_idemp. Qed.

Lemma strip_rstrip s : strip (rstrip s) = strip s.
Proof. unfold strip. by rewrite rstrip_idemp. Qed.

Lemma lstrip_empty s : lstrip s = "" ↔ strip s = "".
Proof.
  unfold strip. rewrite <- strip_comm. split; [by intros ->|].
  destruct (lstrip_head s) as [->|(c & r & -> & Hc)]; [done|].
  rewrite rstrip_cons. destruct (rstrip r); by rewrite ?Hc.
Qed.

Lemma rstrip_empty s : rstrip s = "" ↔ strip s = "".
Proof.
  split; [unfold strip; by intros ->|]. intros Hs.
  destruct (last_char (rstrip s)) as [c|] eqn:Hlast;
    [|by apply last_char_None].
  exfalso. apply (strip_nonempty c s); [|by eapply last_char_rstrip|done].
  apply occurs_rstrip; [by eapply last_char_rstrip|].
  by apply last_char_occurs.
Qed.

(** On an indented line the two parsers see the same field, as long as
    neither side is blank. *)
Lemma field_block_field id line k v :
  indented line → strip line ≠ id →
  field line k v ↔ block_field id line k v ∧ k ≠ "" ∧ v ≠ "".
Proof.
  intros Hind Hne. split.
  - intros Hf. pose proof (field_tidy _ _ _ Hf) as [[Hk _] [Hv _]].
    split; [|done]. split; [done|].
    destruct Hf as (_ & k0 & v0 & Hs & Hk0 & _ & _ & -> & ->).
    assert (occurs ":" line) as Hocc.
    { apply (occurs_strip ":" line colon_not_space). rewrite Hs. by exists k0, v0. }
    destruct (split1_occurs _ _ Hocc) as (k1 & v1 & -> & Hk1 & _).
    exists k1, v1. split; [done|]. split; [done|].
    rewrite strip_cut in Hs. apply (f_equal (split1 ":")) in Hs.
    rewrite (split1_cut _ _ _ Hk0), split1_cut in Hs
      by (by rewrite (occurs_lstrip ":" k1 colon_not_space)).
    injection Hs as <- <-. by rewrite strip_lstrip, strip_rstrip.
  - intros [(_ & k1 & v1 & -> & Hk1 & -> & ->) [Hk Hv]].
    split; [done|]. exists (lstrip k1), (rstrip v1).
    split; [apply strip_cut|].
    split; [by rewrite (occurs_lstrip ":" k1 colon_not_space)|].
    split; [by rewrite lstrip_empty|]. split; [by rewrite rstrip_empty|].
    by rewrite strip_lstrip, strip_rstrip.
Qed.

Lemma plain_no_field id block k :
  (∀ line, line ∈ block → plain_data_line id line) →
  no_data_field block k ↔ no_field id block k.
Proof.
  intros Hplain. unfold no_data_field, no_field.
  split; intros H line v Hin Hf; destruct (Hplain line Hin) as (Hind & Hne & Hnb).
  - apply (H line v Hin). apply (field_block_field id); [done..|].
    split; [done|]. by apply Hnb.
  - apply (H line v Hin). by apply (field_block_field id) in Hf as [? _].
Qed.

Lemma plain_last_field id block k v :
  (∀ line, line ∈ block → plain_data_line id line) →
  last_data_field block k v ↔ last_field id block k v.
Proof.
  intros Hplain. unfold last_data_field, last_field.
  split; intros (b1 & line & b2 & -> & Hf & Hno); exists b1, line, b2;
    (split; [done|]);
    (assert (plain_data_line id line) as (Hind & Hne & Hnb)
       by (apply Hplain, elem_of_app; right; left));
    (assert (∀ l, l ∈ b2 → plain_data_line id l) as Hplain2
       by (intros l Hl; apply Hplain, elem_of_app; right; by right)).
  - split; [by apply (field_block_field id) in Hf as [? _]|].
    by apply plain_no_field.
  - split; [|by apply (plain_no_field id)].
    apply (field_block_field id); [done..|]. split; [done|]. by apply Hnb.
Qed.

Lemma bang_header line : bang line → header line.
Proof.
  intros [r ->]. split.
  - intros [r' Hr']. discriminate.
  - change ("!" +:+ r) with (String "!" r). unfold strip. rewrite rstrip_cons.
    destruct (rstrip r); simpl; by eexists.
Qed.

(** X16: on a well-formed block the dashboard parser and the alerter
    parser read the same fields. Let [h] be the only header of its node
    id (no line before it is the id after trimming, no header after the
    block has the id), let the block after it end at a line that begins
    with [!] or at the end of the text, and let every line of the block
    begin with two spaces and have no blank side at its colon. Then
    [parse_node_data] returns for the id the very mapping that
    [parse_nodes] stores under it. *)
Theorem parsers_agree_on_a_plain_block (output h : string)
    (pre block rest : list string) :
  split "010" output = pre ++ h :: block ++ rest →
  header h →
  (∀ line, line ∈ pre → strip line ≠ strip h) →
  (∀ line, line ∈ block → plain_data_line (strip h) line) →
  (rest = [] ∨ ∃ l rest', rest = l :: rest' ∧ bang l ∧ strip l ≠ strip h) →
  (∀ line, line ∈ rest → header line → strip line ≠ strip h) →
  ∃ nodes fields,
    parse_nodes output = Ok nodes ∧ nodes !! strip h = Some fields ∧
    parse_node_data output (strip h) = Ok fields.
Proof.
  intros Hsplit Hh Hpre Hblock Hnext Hrest.
  destruct (parse_nodes_last_block output h pre block rest)
    as (nodes & fields & Hnodes & Hlook & Hspec); [done|done| | |done|].
  { intros line Hin [Hni _]. by destruct (Hblock line Hin) as [? _]. }
  { destruct Hnext as [->|(l & rest' & -> & Hb & _)]; [by left|].
    right. exists l, rest'. split; [done|]. by apply bang_header. }
  exists nodes, fields. split; [done|]. split; [done|].
  unfold parse_node_data. rewrite Hsplit.
  rewrite (parse_node_lines_scan _ _ _ _ Hpre). simpl.
  rewrite decide_True by done.
  destruct (parse_node_lines_block (strip h) block rest ∅)
    as (m & -> & Hm); [|done|].
  { intros line Hin. right. destruct (Hblock line Hin) as [[r ->] _].
    intros [r' Hr']. discriminate. }
  f_equal. apply map_eq. intros k. apply option_eq. intros v.
  rewrite Hm, Hspec, lookup_empty, (plain_last_field (strip h)) by done.
  split; [by intros [?|[_ [=]]] | by left].
Qed.

Lemma parsers_agree_witness :
  ∃ nodes fields,
    parse_nodes (text_of ["!a"; "  Battery: 15%"; "  SNR: -12.3dB"; "!b"]) = Ok nodes ∧
    nodes !! "!a" = Some fields ∧
    parse_node_data (text_of ["!a"; "  Battery: 15%"; "  SNR: -12.3dB"; "!b"]) "!a"
    = Ok fields.
Proof.
  assert (header "!a") as Ha by (by apply is_header_spec).
  assert (∀ line k0 v0, line = "  " +:+ k0 +:+ String ":" v0 →
            ¬ occurs ":" ("  " +:+ k0) → strip line ≠ "!a" →
            strip ("  " +:+ k0) ≠ "" → strip v0 ≠ "" →
            plain_data_line "!a" line) as Hplain.
  { intros line k0 v0 -> Hk0 Hne Hk Hv. split; [by eexists|]. split; [done|].
    intros k v Hf.
    change ("  " +:+ k0 +:+ String ":" v0)
      with (("  " +:+ k0) +:+ String ":" v0) in Hf.
    by destruct (block_field_cut _ _ _ _ _ Hk0 Hf) as [-> ->]. }
  apply (parsers_agree_on_a_plain_block
           (text_of ["!a"; "  Battery: 15%"; "  SNR: -12.3dB"; "!b"]) "!a"
           [] ["  Battery: 15%"; "  SNR: -12.3dB"] ["!b"]).
  - reflexivity.
  - exact Ha.
  - intros line Hin. by apply elem_of_nil in Hin.
  - intros line [->|Hin]%elem_of_cons;
      [|apply list_elem_of_singleton in Hin as ->].
    + apply (Hplain _ "Battery" " 15%"); try done. by apply contains_char_false.
    + apply (Hplain _ "SNR" " -12.3dB"); try done. by apply contains_char_false.
  - right. exists "!b", []. split; [done|]. split; [by exists "b"|done].
  - intros line ->%list_elem_of_singleton _. done.
Defined.
End parsers_agree.

(** ** The dashboard and the alerter *)

Section dashboard_facts.
Import Classifier Dashboard.

Lemma lt_minus_10_not_positive x :
  lt_minus_10 x = true → gt_5 x = false ∧ gt_0 x = false.
Proof.
  destruct x as [|neg|neg m e]; [done|..]; unfold lt_minus_10; simpl.
  - by intros ->.
  - by intros [-> _]%andb_true_iff.
Qed.

(** X17: the dashboard and the alerter agree on weak signals. A field map
    whose SNR raises the weak-signal alert (it has the unit [dB] and its
    value is below -10) is shown with the mark for a poor signal on the
    dashboard, never with the good or the moderate one. *)
Theorem weak_signal_is_marked_poor (data : gmap string string) (x : pyfloat) :
  snrDb data = Some x → lt_minus_10 x = true →
  ∃ snr, data !! "SNR" = Some snr ∧ snr_cell data = (Some poor, snr).
Proof.
  unfold snrDb, snr_cell. intros Hx Hlt.
  destruct (data !! "SNR") as [snr|]; [|done]. simpl in *.
  exists snr. split; [done|].
  destruct (contains "dB" snr) eqn:Hdb; [|done].
  rewrite decide_True by (intros ->; done).
  destruct (float (strip (replace "dB" "" snr))) as [y|]; [|done].
  injection Hx as ->.
  by destruct (lt_minus_10_not_positive x Hlt) as [-> ->].
Qed.

Lemma weak_signal_witness :
  snr_cell {[ "SNR" := "-12.3dB" ]} = (Some poor, "-12.3dB").
Proof.
  destruct (weak_signal_is_marked_poor {[ "SNR" := "-12.3dB" ]} (FDec true 123 (-1)))
    as (snr & Hsnr & ->); [by vm_compute..|].
  vm_compute in Hsnr. by injection Hsnr as <-.
Defined.
End dashboard_facts.
